(** * Intercom agent RPC: registry contract, RPC handler, canonical codec, invites

    A shallow embedding of
      - contract/contract.js        (AgentRpcContract: the service registry),
      - features/rpc-handler/index.js (RpcHandler: the JSON-RPC dispatcher),
      - the protocol file           (stableStringify, normalizeInvitePayload and
                                     the /sc_invite branch of customCommand),
    together with the properties of the specification that concern them. *)

From Stdlib Require Import Ascii.
From stdpp Require Import gmap strings list sorting pretty.

Local Open Scope string_scope.
Local Open Scope Z_scope.
Set Warnings "-register-all".

(** ** JavaScript values

    The values the sources manipulate are JSON data plus [undefined].  Numbers
    are the integers (timestamps, TTLs, error codes, versions: the sources
    compute with nothing else); strings are sequences of characters.  An object
    is the sequence of its own properties in [Object.keys] order. *)
Module JS.

Inductive value : Type :=
  | JUndefined
  | JNull
  | JBool (b : bool)
  | JNum (n : Z)
  | JStr (s : string)
  | JArr (xs : list value)
  | JObj (fields : list (string * value)).

(** A function that may end in a TypeError (reading a property of [null] or
    [undefined], iterating a value that is not iterable). *)
Inductive completion (A : Type) : Type :=
  | Normal (a : A)
  | TypeError.
Arguments Normal {A} a.
Arguments TypeError {A}.

(** ToBoolean. *)
Definition truthy (v : value) : bool :=
  match v with
  | JUndefined | JNull => false
  | JBool b => b
  | JNum n => negb (n =? 0)
  | JStr s => negb (bool_decide (s = ""))
  | JArr _ | JObj _ => true
  end.

(** [a || b]. *)
Definition js_or (a b : value) : value := if truthy a then a else b.

(** [v === null], [v === undefined], and [v === s] for a string [s]. *)
Definition is_null (v : value) : bool :=
  match v with JNull => true | _ => false end.
Definition is_undefined (v : value) : bool :=
  match v with JUndefined => true | _ => false end.
Definition is_str (v : value) (s : string) : bool :=
  match v with JStr t => bool_decide (t = s) | _ => false end.
Definition is_nullish (v : value) : bool := is_null v || is_undefined v.

(** [Array.isArray(v)]. *)
Definition Array_isArray (v : value) : bool :=
  match v with JArr _ => true | _ => false end.

(** Own-property lookup in a property list. *)
Fixpoint assoc {V : Type} (k : string) (fields : list (string * V)) : option V :=
  match fields with
  | [] => None
  | (k', v) :: rest => if bool_decide (k' = k) then Some v else assoc k rest
  end.

(** [v.k] on a value that is neither [null] nor [undefined] (callers rule those
    out, or report the TypeError).  The property names the sources read are
    never [length] nor an index, so only objects have them. *)
Definition get_prop (v : value) (k : string) : value :=
  match v with
  | JObj fields => default JUndefined (assoc k fields)
  | _ => JUndefined
  end.

(** [o.k = v]: an existing property keeps its place, a new one goes last (the
    sources assign no index-like name, which would be ordered first). *)
Fixpoint assign (k : string) (v : value) (fields : list (string * value))
  : list (string * value) :=
  match fields with
  | [] => [(k, v)]
  | (k', v') :: rest =>
      if bool_decide (k' = k) then (k, v) :: rest else (k', v') :: assign k v rest
  end.

Definition set_prop (o : value) (k : string) (v : value) : value :=
  match o with
  | JObj fields => JObj (assign k v fields)
  | _ => o
  end.

(** [Object.keys(o)]. *)
Definition Object_keys (fields : list (string * value)) : list string :=
  fields.*1.

(** [xs.join(sep)] on an array of strings. *)
Fixpoint join (sep : string) (xs : list string) : string :=
  match xs with
  | [] => ""
  | [x] => x
  | x :: rest => x +:+ sep +:+ join sep rest
  end.

(** ToString, as used by template literals and [String(v)]. *)
Fixpoint ToString (v : value) : string :=
  match v with
  | JUndefined => "undefined"
  | JNull => "null"
  | JBool true => "true"
  | JBool false => "false"
  | JNum n => pretty n
  | JStr s => s
  | JArr xs =>
      join "," (map (fun x => if is_nullish x then "" else ToString x) xs)
  | JObj _ => "[object Object]"
  end.

(** The values a [for ... of] loop visits: the elements of an array, the
    characters of a string; other values of this model are not iterable. *)
Definition iterate (v : value) : completion (list value) :=
  match v with
  | JArr xs => Normal xs
  | JStr s =>
      Normal (map (fun c => JStr (String c ""))
                  (Stdlib.Strings.String.list_ascii_of_string s))
  | _ => TypeError
  end.

End JS.
Export JS.

(** ** The service registry (contract/contract.js) *)
Module Contract.

(** The replicated key-value store behind [this.get] and [this.put].  Stored
    values are serialised data, so [get] answers a value or [null], never
    [undefined]. *)
Abbreviation store := (gmap string value).

Definition get (s : store) (key : string) : value :=
  match s !! key with
  | None | Some JUndefined => JNull
  | Some v => v
  end.

Definition put (s : store) (key : string) (v : value) : store := <[key := v]> s.

(** The three key spaces: [services/<id>], [services_index], [providers/<address>]. *)
Definition service_key (serviceId : string) : string := "services/" +:+ serviceId.
Definition index_key : string := "services_index".
Definition provider_key (providerAddress : string) : string :=
  "providers/" +:+ providerAddress.

(** [this.value] after schema validation ([addSchema] in the constructor):
    required fields are strings, optional ones may be [undefined]. *)
Record RegisterValue : Type := {
  reg_serviceId : string;
  reg_method : string;
  reg_description : string;
  reg_priceInTNK : string;
  reg_category : option string
}.

Record UpdateValue : Type := {
  upd_serviceId : string;
  upd_description : option string;
  upd_priceInTNK : option string;
  upd_category : option string
}.

Definition optional (o : option string) : value :=
  match o with Some s => JStr s | None => JUndefined end.

(** What a transaction function returns: nothing, or [new Error(message)]. *)
Inductive outcome : Type :=
  | Done
  | Failed (message : string).

Definition AlreadyExists : outcome := Failed "Service already exists".
Definition NotFound : outcome := Failed "Service not found".
Definition Unauthorized : outcome := Failed "Not authorized".

(** [let index = await this.get(key) || []; if (!Array.isArray(index)) index = [];
    index.push(serviceId); await this.put(key, index)]. *)
Definition push_id (s : store) (key serviceId : string) : store :=
  let index := js_or (get s key) (JArr []) in
  let index := if Array_isArray index then index else JArr [] in
  match index with
  | JArr ids => put s key (JArr (ids ++ [JStr serviceId]))
  | _ => s
  end.

(** [let index = await this.get(key) || []; if (Array.isArray(index))
    { index = index.filter(id => id !== serviceId); await this.put(key, index) }]. *)
Definition drop_id (s : store) (key serviceId : string) : store :=
  let index := js_or (get s key) (JArr []) in
  match index with
  | JArr ids =>
      put s key (JArr (List.filter (fun id => negb (is_str id serviceId)) ids))
  | _ => s
  end.

Definition registerService (s : store) (address : string) (v : RegisterValue)
  : outcome * store :=
  let serviceId := reg_serviceId v in
  let existing := get s (service_key serviceId) in
  if negb (is_null existing) then (AlreadyExists, s) else
  let providerAddress := address in
  let currentTime := get s "currentTime" in
  let service := JObj [
    ("serviceId", JStr serviceId);
    ("method", JStr (reg_method v));
    ("description", JStr (reg_description v));
    ("priceInTNK", JStr (reg_priceInTNK v));
    ("category", js_or (optional (reg_category v)) (JStr "general"));
    ("providerAddress", JStr providerAddress);
    ("timestamp", currentTime);
    ("active", JBool true) ] in
  let s := put s (service_key serviceId) service in
  let s := push_id s index_key serviceId in
  let s := push_id s (provider_key providerAddress) serviceId in
  (Done, s).

(** [if (field !== undefined) service.<name> = field]. *)
Definition merge_field (service : value) (name : string) (field : option string)
  : value :=
  match field with
  | Some text => set_prop service name (JStr text)
  | None => service
  end.

Definition updateService (s : store) (address : string) (v : UpdateValue)
  : outcome * store :=
  let serviceId := upd_serviceId v in
  let service := get s (service_key serviceId) in
  if is_null service then (NotFound, s) else
  if negb (is_str (get_prop service "providerAddress") address)
  then (Unauthorized, s) else
  let service := merge_field service "description" (upd_description v) in
  let service := merge_field service "priceInTNK" (upd_priceInTNK v) in
  let service := merge_field service "category" (upd_category v) in
  (Done, put s (service_key serviceId) service).

Definition removeService (s : store) (address : string) (serviceId : string)
  : outcome * store :=
  let service := get s (service_key serviceId) in
  if is_null service then (NotFound, s) else
  if negb (is_str (get_prop service "providerAddress") address)
  then (Unauthorized, s) else
  let providerAddress := address in
  let service := set_prop service "active" (JBool false) in
  let s := put s (service_key serviceId) service in
  let s := drop_id s index_key serviceId in
  let s := drop_id s (provider_key providerAddress) serviceId in
  (Done, s).

(** The body of the read loops: [const service = await this.get(`services/${serviceId}`);
    if (service && service.active) services.push(service)]. *)
Definition active_service (s : store) (serviceId : value) : option value :=
  let service := get s (service_key (ToString serviceId)) in
  if truthy service && truthy (get_prop service "active") then Some service
  else None.

(** [listServices] prints the array [services]; that array is the result here. *)
Definition listServices (s : store) : completion (list value) :=
  match iterate (js_or (get s index_key) (JArr [])) with
  | Normal ids => Normal (omap (active_service s) ids)
  | TypeError => TypeError
  end.

(** [getServiceById] prints either the record or "not found or inactive". *)
Inductive report : Type :=
  | Service (service : value)
  | NotFoundOrInactive (serviceId : string).

Definition getServiceById (s : store) (serviceId : string) : report :=
  let service := get s (service_key serviceId) in
  if truthy service && truthy (get_prop service "active") then Service service
  else NotFoundOrInactive serviceId.

Definition getProviderServices (s : store) (providerAddress : string)
  : completion (list value) :=
  match iterate (js_or (get s (provider_key providerAddress)) (JArr [])) with
  | Normal ids => Normal (omap (active_service s) ids)
  | TypeError => TypeError
  end.

(** A record exists at [serviceId]; the record there names [address] as its
    provider (so it exists). *)
Definition record_exists (s : store) (serviceId : string) : Prop :=
  is_null (get s (service_key serviceId)) = false.

Definition owned_by (s : store) (serviceId address : string) : Prop :=
  get_prop (get s (service_key serviceId)) "providerAddress" = JStr address.

(** The three write transactions, as one step function, and their sequences. *)
Inductive op : Type :=
  | Register (v : RegisterValue)
  | Update (v : UpdateValue)
  | Remove (serviceId : string).

Definition step (s : store) (call : string * op) : outcome * store :=
  match call with
  | (address, Register v) => registerService s address v
  | (address, Update v) => updateService s address v
  | (address, Remove serviceId) => removeService s address serviceId
  end.

Definition run (s : store) (calls : list (string * op)) : store :=
  foldl (fun s call => (step s call).2) s calls.

(** The state of one [serviceId]: no record, a record whose [active] flag
    holds, a record whose flag does not. *)
Inductive lifecycle : Type := Absent | Active | Inactive.

Definition lifecycle_of (s : store) (serviceId : string) : lifecycle :=
  let service := get s (service_key serviceId) in
  if is_null service then Absent
  else if truthy (get_prop service "active") then Active
  else Inactive.

(** The arrows of [absent -> active -> inactive], and staying put. *)
Definition transition (a b : lifecycle) : bool :=
  match a, b with
  | Absent, Absent | Absent, Active => true
  | Active, Active | Active, Inactive => true
  | Inactive, Inactive => true
  | _, _ => false
  end.

(** The [timer_feature] of the constructor: an entry that passes the
    [feature_entry] schema ([valid], decided by the validator of the peer) and
    whose key is [currentTime] is stored under that key. *)
Definition timer_feature (s : store) (valid : bool) (key v : value) : store :=
  if negb valid then s
  else if is_str key "currentTime" then put s "currentTime" v
  else s.

(** The elements an index holds once [get(key) || []] has been reset to [[]]
    where it is not an array. *)
Definition array_elements (v : value) : list value :=
  match v with JArr ids => ids | _ => [] end.

(** The keys a transaction may write. *)
Definition written (call : string * op) : list string :=
  match call with
  | (address, Register v) =>
      [service_key (reg_serviceId v); index_key; provider_key address]
  | (address, Update v) => [service_key (upd_serviceId v)]
  | (address, Remove serviceId) =>
      [service_key serviceId; index_key; provider_key address]
  end.

(** The ids of a list other than [serviceId], in their order. *)
Definition other_than (serviceId : string) (ids : list string) : list string :=
  List.filter (fun id => negb (bool_decide (id = serviceId))) ids.

(** The index under [key] lists exactly [ids] (an index never written reads
    as [null] and lists nothing). *)
Definition indexed (s : store) (key : string) (ids : list string) : Prop :=
  get s key = JArr (JStr <$> ids) ∨ (get s key = JNull ∧ ids = []).

(** The indices agree with the records: the global index lists the active
    ids, each once; the index of a provider lists its active ids, each once. *)
Definition consistent (s : store) : Prop :=
  (∃ ids, indexed s index_key ids ∧ NoDup ids
          ∧ ∀ serviceId, serviceId ∈ ids ↔ lifecycle_of s serviceId = Active)
  ∧ ∀ address,
      ∃ ids, indexed s (provider_key address) ids ∧ NoDup ids
             ∧ ∀ serviceId,
                 serviceId ∈ ids
                 ↔ lifecycle_of s serviceId = Active
                   ∧ owned_by s serviceId address.

End Contract.

(** ** The JSON-RPC dispatcher (features/rpc-handler/index.js) *)
Module Rpc.

(** [await tool.handler(params)]: the handler resolves with a value, or throws
    (rejects with) a value. *)
Inductive settled : Type :=
  | Returns (result : value)
  | Throws (err : value).

Record Tool : Type := {
  handler : value → settled;
  metadata : value
}.

(** [this.tools], a [Map] in insertion order; [this.enabledChannels], an array
    of channel names or [null]. *)
Record RpcHandler : Type := {
  tools : list (string * Tool);
  enabledChannels : option (list string)
}.

Fixpoint Map_get {V : Type} (k : string) (m : list (string * V)) : option V :=
  match m with
  | [] => None
  | (k', v) :: rest => if bool_decide (k' = k) then Some v else Map_get k rest
  end.

Fixpoint Map_set {V : Type} (k : string) (v : V) (m : list (string * V))
  : list (string * V) :=
  match m with
  | [] => [(k, v)]
  | (k', v') :: rest =>
      if bool_decide (k' = k) then (k, v) :: rest else (k', v') :: Map_set k v rest
  end.

(** [this.tools.set(methodName, { handler, metadata: {...} })], the statement
    of [registerTool] that writes: each of the four properties is read off
    [metadata] and defaults with [||]. *)
Definition store_tool (h : RpcHandler) (methodName : string)
    (handler : value → settled) (metadata : value) : RpcHandler :=
  let tool := {|
    handler := handler;
    metadata := JObj [
      ("description", js_or (get_prop metadata "description") (JStr ""));
      ("priceInTNK", js_or (get_prop metadata "priceInTNK") (JStr "0"));
      ("category", js_or (get_prop metadata "category") (JStr "general"));
      ("serviceId", js_or (get_prop metadata "serviceId") (JStr methodName)) ]
  |} in
  {| tools := Map_set methodName tool (tools h);
     enabledChannels := enabledChannels h |}.

(** [registerTool(methodName, handler, metadata = {})]: the default [{}]
    stands in for [undefined] alone, so with [null] the first property read,
    [metadata.description], throws a [TypeError] before anything is written.
    The handler is a function by its type, so the "must be a function" throw
    has no counterpart; the best-effort publication into the contract is a
    separate asynchronous task and leaves [this] alone. *)
Definition registerTool (h : RpcHandler) (methodName : string)
    (handler : value → settled) (metadata : value) : completion RpcHandler :=
  let metadata := if is_undefined metadata then JObj [] else metadata in
  if is_null metadata then TypeError
  else Normal (store_tool h methodName handler metadata).

(** The object [_parseJsonRpc] returns. *)
Record Request : Type := {
  jsonrpc : value;
  method : string;
  params : value;
  id : value
}.

(** The response envelopes built by [handleMessage]. *)
Definition errorResponse (code : Z) (message id : value) : value :=
  JObj [ ("jsonrpc", JStr "2.0");
         ("error", JObj [("code", JNum code); ("message", message)]);
         ("id", id) ].

Definition successResponse (result id : value) : value :=
  JObj [ ("jsonrpc", JStr "2.0"); ("result", result); ("id", id) ].

Section Dispatcher.

(** [JSON.parse]: [None] when it throws a SyntaxError. *)
Variable JSON_parse : string → option value.

(** The [try] block of [_parseJsonRpc]: [Some json], or [None] for
    [return null]. *)
Definition decode (payload : value) : option value :=
  match payload with
  | JStr text => JSON_parse text
  | JArr _ | JObj _ => Some payload
  | _ => None
  end.

(** The property reads after the [try] block are outside it: on a [json] that
    is [null] they throw. *)
Definition _parseJsonRpc (payload : value) : completion (option Request) :=
  match decode payload with
  | None => Normal None
  | Some json =>
      if is_nullish json then TypeError else
      if negb (is_str (get_prop json "jsonrpc") "2.0") then Normal None else
      match get_prop json "method" with
      | JStr m =>
          if is_undefined (get_prop json "id") then Normal None else
          Normal (Some {| jsonrpc := get_prop json "jsonrpc";
                          method := m;
                          params := js_or (get_prop json "params") (JArr []);
                          id := get_prop json "id" |})
      | _ => Normal None
      end
  end.

(** A decoded payload that passes the three checks, with method name [m]. *)
Definition conforming (json : value) (m : string) : Prop :=
  get_prop json "jsonrpc" = JStr "2.0"
  ∧ get_prop json "method" = JStr m
  ∧ get_prop json "id" ≠ JUndefined.

(** [this.enabledChannels && !this.enabledChannels.includes(channel)]. *)
Definition not_for_us (h : RpcHandler) (channel : string) : bool :=
  match enabledChannels h with
  | Some channels => negb (bool_decide (channel ∈ channels))
  | None => false
  end.

Definition handleMessage (h : RpcHandler) (channel : string) (payload : value)
  : completion (option value) :=
  if not_for_us h channel then Normal None else
  match _parseJsonRpc payload with
  | TypeError => TypeError
  | Normal None => Normal None
  | Normal (Some request) =>
      match Map_get (method request) (tools h) with
      | None =>
          Normal (Some (errorResponse (-32601)
            (JStr ("Method not found: " +:+ method request)) (id request)))
      | Some tool =>
          match handler tool (js_or (params request) (JArr [])) with
          | Returns result => Normal (Some (successResponse result (id request)))
          | Throws err =>
              (* catch (err) { ... err.message || 'Internal error' ... } *)
              if is_nullish err then TypeError else
              Normal (Some (errorResponse (-32000)
                (js_or (get_prop err "message") (JStr "Internal error"))
                (id request)))
          end
      end
  end.

End Dispatcher.

(** [JSON.parse] restricted to the three literal tokens, enough to run the
    dispatcher on the payload texts [null], [true] and [false]. *)
Definition JSON_parse_literal (text : string) : option value :=
  if bool_decide (text = "null") then Some JNull
  else if bool_decide (text = "true") then Some (JBool true)
  else if bool_decide (text = "false") then Some (JBool false)
  else None.

End Rpc.

(** ** The canonical codec ([stableStringify] of the protocol file) *)
Module Codec.

(** [JSON.stringify] on the values whose [typeof] is not ['object'], the only
    ones [stableStringify] hands to it: the quoting of a string escapes the
    quotation mark, the backslash and the control characters; a number prints
    in decimal; a boolean by name. *)
Definition hex_digit (n : N) : ascii :=
  match n with
  | 0 => "0" | 1 => "1" | 2 => "2" | 3 => "3" | 4 => "4" | 5 => "5"
  | 6 => "6" | 7 => "7" | 8 => "8" | 9 => "9" | 10 => "a" | 11 => "b"
  | 12 => "c" | 13 => "d" | 14 => "e" | _ => "f"
  end%N%char.

Definition backslash : ascii := "092".
Definition escape (c : ascii) : string := String backslash (String c "").

Definition quote_char (c : ascii) : string :=
  let n := N_of_ascii c in
  if (n =? 8)%N then escape "b"
  else if (n =? 9)%N then escape "t"
  else if (n =? 10)%N then escape "n"
  else if (n =? 12)%N then escape "f"
  else if (n =? 13)%N then escape "r"
  else if (n =? 34)%N then escape c
  else if (n =? 92)%N then escape c
  else if (n <? 32)%N then
    String backslash
      ("u00" +:+ String (hex_digit (n / 16)) (String (hex_digit (n mod 16)) ""))
  else String c "".

Fixpoint quote_chars (s : string) : string :=
  match s with
  | "" => ""
  | String c rest => quote_char c +:+ quote_chars rest
  end.

Definition quotation_mark : string := String "034" "".
Definition quoted (s : string) : string :=
  quotation_mark +:+ s +:+ quotation_mark.

Definition JSON_stringify (v : value) : string :=
  match v with
  | JStr s => quoted (quote_chars s)
  | JNum n => pretty n
  | JBool true => "true"
  | JBool false => "false"
  | _ => "null"
  end.

(** [Object.keys(value).sort()]: the default comparison orders strings
    lexicographically by character code, and keys are pairwise distinct, so
    the result is the one ascending arrangement of the keys. *)
Definition sort_keys (keys : list string) : list string :=
  merge_sort String.le keys.

(** [`${JSON.stringify(key)}:${encoded}`]. *)
Definition member (key encoded : string) : string :=
  JSON_stringify (JStr key) +:+ ":" +:+ encoded.

(** [stableStringify].  In the object case the members are encoded where they
    stand, and [value[key]] picks the encoding of the member named [key];
    [stableStringify_object] below restates the case with the source's
    [stableStringify(value[key])]. *)
Fixpoint stableStringify (value : value) : string :=
  match value with
  | JNull | JUndefined => "null"
  | JBool _ | JNum _ | JStr _ => JSON_stringify value
  | JArr xs => "[" +:+ join "," (map stableStringify xs) +:+ "]"
  | JObj fields =>
      let encoded :=
        map (fun kv : string * JS.value => (kv.1, stableStringify kv.2)) fields in
      let keys := sort_keys (Object_keys fields) in
      "{" +:+ join ","
                (map (fun key => member key (default "null" (assoc key encoded)))
                     keys)
          +:+ "}"
  end.

(** Structural equality: the same scalar; arrays with structurally equal
    elements in the same order; objects with the same keys, each bound to
    structurally equal values, whatever the order the keys were inserted in. *)
Inductive same : value → value → Prop :=
  | same_undefined : same JUndefined JUndefined
  | same_null : same JNull JNull
  | same_bool b : same (JBool b) (JBool b)
  | same_num n : same (JNum n) (JNum n)
  | same_str s : same (JStr s) (JStr s)
  | same_arr xs ys : Forall2 same xs ys → same (JArr xs) (JArr ys)
  | same_obj fields fields' reordered :
      fields' ≡ₚ reordered →
      Forall2 (fun kv kv' => kv.1 = kv'.1 ∧ same kv.2 kv'.2) fields reordered →
      same (JObj fields) (JObj fields').

(** An object has each key once. *)
Inductive well_formed : value → Prop :=
  | wf_undefined : well_formed JUndefined
  | wf_null : well_formed JNull
  | wf_bool b : well_formed (JBool b)
  | wf_num n : well_formed (JNum n)
  | wf_str s : well_formed (JStr s)
  | wf_arr xs : Forall well_formed xs → well_formed (JArr xs)
  | wf_obj fields :
      NoDup (Object_keys fields) →
      Forall (fun kv => well_formed kv.2) fields →
      well_formed (JObj fields).

(** The value with every [undefined] in it, at any depth, turned into [null]. *)
Fixpoint nullify (v : value) : value :=
  match v with
  | JUndefined => JNull
  | JArr xs => JArr (map nullify xs)
  | JObj fields => JObj (map (fun kv => (kv.1, nullify kv.2)) fields)
  | _ => v
  end.

End Codec.

(** ** Invite issuance (the [/sc_invite] branch of [customCommand]) *)
Module Invite.

(** [text.trim()] and [text.toLowerCase()], on the white space and letters of
    the ASCII range. *)
Fixpoint trimStart (text : string) : string :=
  match text with
  | String c rest => if Ascii.is_space c then trimStart rest else text
  | "" => ""
  end.

Definition trim (text : string) : string :=
  String.rev (trimStart (String.rev (trimStart text))).

Definition lower (c : ascii) : ascii :=
  let n := N_of_ascii c in
  if ((65 <=? n) && (n <=? 90))%N then ascii_of_N (n + 32) else c.

Fixpoint toLowerCase (text : string) : string :=
  match text with
  | String c rest => String (lower c) (toLowerCase rest)
  | "" => ""
  end.

(** The value of the longest run of decimal digits a text starts with. *)
Fixpoint digits (text : string) (acc : option Z) : option Z :=
  match text with
  | String c rest =>
      match Ascii.is_nat c with
      | Some d => digits rest (Some (10 * default 0 acc + Z.of_nat d))
      | None => acc
      end
  | "" => acc
  end.

(** The integer a text denotes: leading white space, an optional sign, then
    the longest run of decimal digits; [None] when there is no digit. *)
Definition integer_of (text : string) : option Z :=
  match trimStart text with
  | String "-" rest => Z.opp <$> digits rest None
  | String "+" rest => digits rest None
  | rest => digits rest None
  end.

(** The numbers of the command are doubles.  The ones it computes with are
    whole: [Finite n] is the double of value [n], and beyond the largest
    double there are the two infinities; [NaN] is what [parseInt] gives a
    text without digits. *)
Inductive number : Type :=
  | Finite (n : Z)
  | PosInfinity
  | NegInfinity
  | NaN.

(** Rounding of an integer to 53 significant bits, to the nearest and with
    ties to the even neighbour: integers of at most 53 bits are doubles as
    they are. *)
Definition round53 (z : Z) : Z :=
  let a := Z.abs z in
  let bits := Z.log2 a + 1 in
  if bits <=? 53 then z else
  let e := bits - 53 in
  let q := a / 2 ^ e in
  let r := a mod 2 ^ e in
  let half := 2 ^ (e - 1) in
  let q' := if (half <? r) || ((r =? half) && Z.odd q) then q + 1 else q in
  Z.sgn z * (q' * 2 ^ e).

(** The double nearest to an integer; what rounds to [2 ^ 1024] or beyond
    is infinite. *)
Definition nearest (z : Z) : number :=
  let r := round53 z in
  if 2 ^ 1024 <=? r then PosInfinity
  else if r <=? - 2 ^ 1024 then NegInfinity
  else Finite r.

(** [Number.parseInt(text, 10)]: the double nearest to the integer the
    digits denote. *)
Definition parseInt (text : string) : number :=
  match integer_of text with
  | Some z => nearest z
  | None => NaN
  end.

(** [a + b] for a whole finite [a]. *)
Definition plus (a : Z) (b : number) : number :=
  match b with
  | Finite n => nearest (a + n)
  | _ => b
  end.

(** How [stableStringify] sees a number: [JSON.stringify] writes [null] for
    one that is not finite, the text it writes for [null] itself. *)
Definition number_value (x : number) : value :=
  match x with
  | Finite n => JNum n
  | _ => JNull
  end.

Record InvitePayload : Type := {
  channel : string;
  inviteePubKey : string;
  inviterPubKey : string;
  inviterAddress : value;
  issuedAt : Z;
  expiresAt : number;
  nonce : string;
  version : Z
}.

(** [normalizeInvitePayload] on the object the command builds: texts for the
    textual fields, numbers for the numeric ones ([String] and [Number] leave
    those as they are), anything for [inviterAddress]. *)
Definition normalizeInvitePayload (payload : InvitePayload) : InvitePayload := {|
  channel := channel payload;
  inviteePubKey := toLowerCase (trim (inviteePubKey payload));
  inviterPubKey := toLowerCase (trim (inviterPubKey payload));
  inviterAddress :=
    if is_nullish (inviterAddress payload) then JNull else inviterAddress payload;
  issuedAt := issuedAt payload;
  expiresAt := expiresAt payload;
  nonce := nonce payload;
  version := version payload
|}.

(** The payload as the object literal [stableStringify] receives. *)
Definition payload_object (payload : InvitePayload) : value :=
  JObj [ ("channel", JStr (channel payload));
         ("inviteePubKey", JStr (inviteePubKey payload));
         ("inviterPubKey", JStr (inviterPubKey payload));
         ("inviterAddress", inviterAddress payload);
         ("issuedAt", JNum (issuedAt payload));
         ("expiresAt", number_value (expiresAt payload));
         ("nonce", JStr (nonce payload));
         ("version", JNum (version payload)) ].

Record Invite : Type := {
  payload : InvitePayload;
  sig : string;
  welcome : value
}.

(** What the command needs from the peer it runs in. *)
Inductive PublicKey : Type :=
  | NoKey                       (* [this.peer?.wallet?.publicKey] is falsy *)
  | KeyText (text : string)     (* a non-empty string *)
  | KeyBuffer (hex : string).   (* a buffer, by [b4a.toString(buffer, 'hex')] *)

Record Sidechannel : Type := {
  (* the default invite TTL in milliseconds; when it is a number it is a
     whole double, as every number of this model *)
  inviteTtlMs : value;
  getWelcome : option (string → value)
}.

Record Peer : Type := {
  sidechannel : option Sidechannel;
  publicKey : PublicKey;
  (* [this.peer.msbClient.pubKeyHexToAddress], when there is an [msbClient];
     [None] from it when the call throws *)
  pubKeyHexToAddress : option (string → option value);
  (* the hex signature of a message by [wallet.sign], else by
     [PeerWallet.sign] with the wallet's secret key, else the empty string *)
  sign : string → string;
  (* [Date.now()]: a whole number of milliseconds, a time value and so below
     [2 ^ 53] *)
  Date_now : Z;
  random_nonce : string;
  (* [parseWelcomeArg], which reads files and decodes base64 *)
  parseWelcomeArg : value → value
}.

Inductive printed : Type :=
  | Usage
  | SidechannelNotInitialized
  | WalletNotReady
  | TtlRequired
  | InvalidWelcome
  | SignFailed
  | Issued (invite : Invite).

(** [let ttlMs = null; if (ttlRaw !== undefined) {...} else if (...) {...}
    else { ttlMs = 0 }]; [None] is [null].  [Number.isFinite(ttlSec)] is asked
    of the seconds, before they are multiplied. *)
Definition ttlMs_of (ttlRaw inviteTtlMs : value) : option number :=
  if negb (is_undefined ttlRaw) then
    match parseInt (ToString ttlRaw) with
    | Finite ttlSec => Some (nearest (Z.max ttlSec 0 * 1000))
    | _ => None
    end
  else
    match inviteTtlMs with
    | JNum n => if 0 <? n then Some (Finite n) else Some (Finite 0)
    | _ => Some (Finite 0)
    end.

(** [!ttlMs || ttlMs <= 0] for a number; [Infinity] is neither falsy nor
    below zero. *)
Definition not_positive (ttlMs : number) : bool :=
  match ttlMs with
  | Finite n => n <=? 0
  | PosInfinity => false
  | NegInfinity => true
  | NaN => true
  end.

(** [args] is the object [this.parseArgs(input)] returns; the command reads
    each of its inputs under several names. *)
Definition channel_arg (args : value) : value :=
  js_or (get_prop args "channel") (js_or (get_prop args "ch") (get_prop args "name")).
Definition invitee_arg (args : value) : value :=
  js_or (get_prop args "pubkey")
    (js_or (get_prop args "invitee")
       (js_or (get_prop args "peer") (get_prop args "key"))).
Definition ttl_arg (args : value) : value :=
  js_or (get_prop args "ttl") (js_or (get_prop args "ttl_sec") (get_prop args "ttl_s")).
Definition welcome_arg (args : value) : value :=
  js_or (get_prop args "welcome")
    (js_or (get_prop args "welcome_b64") (get_prop args "welcomebase64")).

(** [inviterPubKey]: the wallet's public key as lower-case hex, or nothing. *)
Definition inviterPubKey_of (peer : Peer) : string :=
  match publicKey peer with
  | NoKey => ""
  | KeyText text => toLowerCase (trim text)
  | KeyBuffer hex => hex
  end.

Definition sc_invite (peer : Peer) (args : value) : printed :=
  let channel := channel_arg args in
  let invitee := invitee_arg args in
  let ttlRaw := ttl_arg args in
  let welcomeArg := welcome_arg args in
  if negb (truthy channel) || negb (truthy invitee) then Usage else
  match sidechannel peer with
  | None => SidechannelNotInitialized
  | Some sc =>
      let inviterPubKey := inviterPubKey_of peer in
      if bool_decide (inviterPubKey = "") then WalletNotReady else
      let inviterAddress :=
        match pubKeyHexToAddress peer with
        | Some address => default JNull (address inviterPubKey)
        | None => JNull
        end in
      let issuedAt := Date_now peer in
      match ttlMs_of ttlRaw (inviteTtlMs sc) with
      | None => TtlRequired
      | Some ttlMs =>
          if not_positive ttlMs then TtlRequired else
          let expiresAt := plus issuedAt ttlMs in
          let payload := normalizeInvitePayload {|
            channel := ToString channel;
            inviteePubKey := toLowerCase (trim (ToString invitee));
            inviterPubKey := inviterPubKey;
            inviterAddress := inviterAddress;
            issuedAt := issuedAt;
            expiresAt := expiresAt;
            nonce := random_nonce peer;
            version := 1 |} in
          let message := Codec.stableStringify (payload_object payload) in
          let sigHex := sign peer message in
          let welcome :=
            if truthy welcomeArg then parseWelcomeArg peer welcomeArg
            else match getWelcome sc with
                 | Some welcome_of => welcome_of (ToString channel)
                 | None => JNull
                 end in
          if truthy welcomeArg && negb (truthy welcome) then InvalidWelcome else
          if bool_decide (sigHex = "") then SignFailed else
          Issued {| payload := payload;
                    sig := sigHex;
                    welcome := js_or welcome JUndefined |}
      end
  end.

(** *** Welcome issuance (the [/sc_welcome] branch) *)

Record WelcomePayload : Type := {
  w_channel : string;
  w_ownerPubKey : string;
  w_text : string;
  w_issuedAt : Z;
  w_version : Z
}.

(** [normalizeWelcomePayload] on the object the command builds. *)
Definition normalizeWelcomePayload (payload : WelcomePayload) : WelcomePayload := {|
  w_channel := w_channel payload;
  w_ownerPubKey := toLowerCase (trim (w_ownerPubKey payload));
  w_text := w_text payload;
  w_issuedAt := w_issuedAt payload;
  w_version := w_version payload
|}.

Definition welcome_object (payload : WelcomePayload) : value :=
  JObj [ ("channel", JStr (w_channel payload));
         ("ownerPubKey", JStr (w_ownerPubKey payload));
         ("text", JStr (w_text payload));
         ("issuedAt", JNum (w_issuedAt payload));
         ("version", JNum (w_version payload)) ].

Record Welcome : Type := {
  w_payload : WelcomePayload;
  w_sig : string
}.

Inductive printed_welcome : Type :=
  | WelcomeUsage
  | WelcomeSidechannelNotInitialized
  | WelcomeWalletNotReady
  | WelcomeSignFailed
  | WelcomeIssued (welcome : Welcome).

Definition text_arg (args : value) : value :=
  js_or (get_prop args "text") (js_or (get_prop args "message") (get_prop args "msg")).

(** The welcome is also handed to [sidechannel.acceptInvite], which keeps it
    in the sidechannel's own memory; the command prints it. *)
Definition sc_welcome (peer : Peer) (args : value) : printed_welcome :=
  let channel := channel_arg args in
  let text := text_arg args in
  if negb (truthy channel) || is_undefined text then WelcomeUsage else
  match sidechannel peer with
  | None => WelcomeSidechannelNotInitialized
  | Some sc =>
      let ownerPubKey := inviterPubKey_of peer in
      if bool_decide (ownerPubKey = "") then WelcomeWalletNotReady else
      let payload := normalizeWelcomePayload {|
        w_channel := ToString channel;
        w_ownerPubKey := ownerPubKey;
        w_text := ToString text;
        w_issuedAt := Date_now peer;
        w_version := 1 |} in
      let message := Codec.stableStringify (welcome_object payload) in
      let sigHex := sign peer message in
      if bool_decide (sigHex = "") then WelcomeSignFailed else
      WelcomeIssued {| w_payload := payload; w_sig := sigHex |}
  end.

End Invite.

(** ** The sample tools' registration helper (rpc-tools) *)
Module Tools.
Import Rpc.






End Tools.

(** ** Terminal commands of the protocol file ([customCommand]) *)
Module Commands.

(** [/rpc_call]: what the command ends in. *)
Inductive rpc_call_result : Type :=
  | RpcUsage
  | SidechannelNotAvailable
  | InvalidParams
  | Broadcast (channel : value) (rpcRequest : value).

(** [JSON_parse] is [JSON.parse] ([None] when it throws); [sidechannel] tells
    whether [this.peer.sidechannel] is there; [now] is [Date.now()]. *)
Definition rpc_call (JSON_parse : string → option value) (sidechannel : bool)
    (now : Z) (args : value) : rpc_call_result :=
  let method := js_or (get_prop args "method") (get_prop args "m") in
  let paramsRaw := js_or (get_prop args "params") (get_prop args "p") in
  let channel :=
    js_or (get_prop args "channel")
      (js_or (get_prop args "ch") (JStr "0000intercom")) in
  if negb (truthy method) then RpcUsage else
  if negb sidechannel then SidechannelNotAvailable else
  let parsed :=
    if truthy paramsRaw then
      match JSON_parse (ToString paramsRaw) with
      | Some params => Some (if Array_isArray params then params else JArr [params])
      | None => None
      end
    else Some (JArr []) in
  match parsed with
  | None => InvalidParams
  | Some params =>
      Broadcast channel
        (JObj [ ("jsonrpc", JStr "2.0");
                ("method", JStr (ToString method));
                ("params", params);
                ("id", JNum now) ])
  end.

End Commands.

(** ** Sample data *)
Module Examples.
Import Contract Rpc.

(** A registry with one service, registered by [alice]. *)
Definition echo_service : RegisterValue := {|
  reg_serviceId := "echo";
  reg_method := "echo";
  reg_description := "Echo back the input parameters";
  reg_priceInTNK := "0";
  reg_category := Some "utilities"
|}.

Definition one_service : store := (registerService (∅ : store) "alice" echo_service).2.

(** The same registry after [alice] removed her service. *)
Definition removed_service : store :=
  (removeService one_service "alice" "echo").2.

(** An update that provides the price alone. *)
Definition reprice_echo : UpdateValue := {|
  upd_serviceId := "echo";
  upd_description := None;
  upd_priceInTNK := Some "7.5";
  upd_category := None
|}.

(** Three tools: [echo] of the sample tools, which returns its params; a tool
    that returns nothing; a tool that fails with [new Error('')]. *)
Definition echo (params : value) : settled := Returns params.
Definition silent (params : value) : settled := Returns JUndefined.
Definition failing (params : value) : settled :=
  Throws (JObj [("message", JStr "")]).

(** The handler after [registerTool('echo', echo, {})],
    [registerTool('silent', silent, {})] and [registerTool('boom', failing, {})],
    none of which throws. *)
Definition sample_handler (channels : option (list string)) : RpcHandler :=
  store_tool
    (store_tool
       (store_tool {| tools := []; enabledChannels := channels |}
          "echo" echo (JObj []))
       "silent" silent (JObj []))
    "boom" failing (JObj []).

(** [{"jsonrpc":"2.0","method":<method>,"params":[5,3],"id":<id>}]. *)
(** [{"b":2,"a":1}] and [{"a":1,"b":2}]. *)
Definition b_then_a : value := JObj [("b", JNum 2); ("a", JNum 1)].
Definition a_then_b : value := JObj [("a", JNum 1); ("b", JNum 2)].

(** A peer whose sidechannel has the default invite TTL [inviteTtlMs], and
    the arguments of [/sc_invite --channel room --pubkey AB12] with the given
    [--ttl]. *)
Definition peer_with (inviteTtlMs : value) : Invite.Peer := {|
  Invite.sidechannel :=
    Some {| Invite.inviteTtlMs := inviteTtlMs; Invite.getWelcome := None |};
  Invite.publicKey := Invite.KeyText "CAFE01";
  Invite.pubKeyHexToAddress := None;
  Invite.sign := fun message => "5161";
  Invite.Date_now := 1700000000000;
  Invite.random_nonce := "k3j9x2ab";
  Invite.parseWelcomeArg := fun arg => JNull
|}.

Definition invite_args (ttl : value) : value :=
  JObj [("channel", JStr "room"); ("pubkey", JStr "AB12"); ("ttl", ttl)].

(** The digits of 18 followed by 304 zeros, about [1.8e305] seconds. *)
Fixpoint zeros (n : nat) : string :=
  match n with
  | O => ""
  | S n => String "0" (zeros n)
  end.

Definition huge_ttl : string := "18" +:+ zeros 304.



Definition request_for (method : string) (id : value) : value :=
  JObj [ ("jsonrpc", JStr "2.0");
         ("method", JStr method);
         ("params", JArr [JNum 5; JNum 3]);
         ("id", id) ].

End Examples.

(** * Properties *)

(** ** Values *)

Lemma assoc_assign_eq k v fields : assoc k (assign k v fields) = Some v.
Proof.
  induction fields as [|[k' v'] rest IH]; simpl.
  - by rewrite bool_decide_eq_true_2.
  - destruct (bool_decide (k' = k)) eqn:E; simpl.
    + by rewrite bool_decide_eq_true_2.
    + by rewrite E.
Qed.

Lemma assoc_assign_ne k k' v fields :
  k ≠ k' → assoc k' (assign k v fields) = assoc k' fields.
Proof.
  intros Hne. induction fields as [|[k0 v0] rest IH]; simpl.
  - by rewrite bool_decide_eq_false_2.
  - destruct (bool_decide (k0 = k)) eqn:E; simpl.
    + apply bool_decide_eq_true_1 in E as ->.
      by rewrite !bool_decide_eq_false_2.
    + by rewrite IH.
Qed.

Lemma get_prop_set_prop_eq fields k v :
  get_prop (set_prop (JObj fields) k v) k = v.
Proof. simpl. by rewrite assoc_assign_eq. Qed.

Lemma get_prop_set_prop_ne o k k' v :
  k ≠ k' → get_prop (set_prop o k v) k' = get_prop o k'.
Proof.
  intros Hne. destruct o; simpl; try done. by rewrite assoc_assign_ne.
Qed.

Lemma is_str_true v s : is_str v s = true ↔ v = JStr s.
Proof.
  destruct v; simpl; try (split; [done | discriminate]).
  rewrite bool_decide_eq_true. split; congruence.
Qed.

Lemma is_null_true v : is_null v = true ↔ v = JNull.
Proof. destruct v; simpl; split; congruence. Qed.

(** A value with a string-valued property is an object. *)
Lemma get_prop_str_obj v k s :
  get_prop v k = JStr s → ∃ fields, v = JObj fields.
Proof. destruct v; simpl; try discriminate. eauto. Qed.

Lemma get_prop_merge_field_ne service name field name' :
  name ≠ name' →
  get_prop (Contract.merge_field service name field) name' = get_prop service name'.
Proof.
  intros Hne. destruct field; simpl; [|done]. by apply get_prop_set_prop_ne.
Qed.

Lemma get_prop_merge_field_eq fields name field :
  get_prop (Contract.merge_field (JObj fields) name field) name
  = default (get_prop (JObj fields) name) (JStr <$> field).
Proof. destruct field; simpl; [|done]. by rewrite assoc_assign_eq. Qed.

Lemma merge_field_obj fields name field :
  ∃ fields', Contract.merge_field (JObj fields) name field = JObj fields'.
Proof. destruct field; simpl; eauto. Qed.

(** ** The service registry *)
Section Registry.
Import Contract Examples.

Implicit Types (s : store) (key serviceId address : string) (v : value).

Lemma service_key_inj serviceId serviceId' :
  service_key serviceId = service_key serviceId' → serviceId = serviceId'.
Proof. apply (inj (String.app "services/")). Qed.

Lemma service_key_not_index serviceId : index_key ≠ service_key serviceId.
Proof. unfold index_key, service_key. lazy. discriminate. Qed.

Lemma service_key_not_provider serviceId address :
  provider_key address ≠ service_key serviceId.
Proof. unfold provider_key, service_key. lazy. discriminate. Qed.

Lemma provider_key_not_index address : provider_key address ≠ index_key.
Proof. unfold provider_key, index_key. lazy. discriminate. Qed.

Lemma get_put_ne s key key' v : key ≠ key' → get (put s key v) key' = get s key'.
Proof. intros Hne. unfold get, put. by rewrite lookup_insert_ne. Qed.

Lemma get_put_eq s key v :
  get (put s key v) key = if is_undefined v then JNull else v.
Proof. unfold get, put. rewrite lookup_insert_eq. by destruct v. Qed.

Lemma get_not_undefined s key : is_undefined (get s key) = false.
Proof. unfold get. by destruct (s !! key) as [[]|]. Qed.

Lemma get_push_id_ne s key key' serviceId :
  key ≠ key' → get (push_id s key serviceId) key' = get s key'.
Proof.
  intros Hne. unfold push_id.
  destruct (js_or (get s key) (JArr [])); simpl; by rewrite ?get_put_ne.
Qed.

Lemma get_drop_id_ne s key key' serviceId :
  key ≠ key' → get (drop_id s key serviceId) key' = get s key'.
Proof.
  intros Hne. unfold drop_id.
  destruct (js_or (get s key) (JArr [])); simpl; by rewrite ?get_put_ne.
Qed.

(** After [drop_id] an index that is an array no longer holds the id. *)
Lemma get_drop_id_eq s key serviceId ids :
  get (drop_id s key serviceId) key = JArr ids → JStr serviceId ∉ ids.
Proof.
  unfold drop_id. destruct (js_or (get s key) (JArr [])) eqn:E; simpl.
  all: try (unfold js_or in E; destruct (truthy (get s key)) eqn:T;
            [rewrite E; intros [=] | discriminate]).
  rewrite get_put_eq. simpl. intros [= <-].
  rewrite list_elem_of_In, filter_In. intros [_ H].
  simpl in H. by rewrite bool_decide_eq_true_2 in H.
Qed.

Lemma owned_by_object s serviceId address :
  owned_by s serviceId address →
  ∃ fields, get s (service_key serviceId) = JObj fields.
Proof. apply get_prop_str_obj. Qed.

Lemma removeService_owner s address serviceId :
  owned_by s serviceId address →
  removeService s address serviceId
  = (Done,
     drop_id
       (drop_id
          (put s (service_key serviceId)
             (set_prop (get s (service_key serviceId)) "active" (JBool false)))
          index_key serviceId)
       (provider_key address) serviceId).
Proof.
  intros Hown. destruct (owned_by_object _ _ _ Hown) as [fields Hget].
  unfold removeService. red in Hown. rewrite Hown, Hget. simpl.
  by rewrite bool_decide_eq_true_2.
Qed.

Lemma removeService_record s address serviceId :
  owned_by s serviceId address →
  get (removeService s address serviceId).2 (service_key serviceId)
  = set_prop (get s (service_key serviceId)) "active" (JBool false).
Proof.
  intros Hown. rewrite removeService_owner by done. simpl.
  rewrite !get_drop_id_ne
    by auto using service_key_not_provider, service_key_not_index.
  rewrite get_put_eq.
  destruct (owned_by_object _ _ _ Hown) as [fields ->]. done.
Qed.

Lemma active_service_Some s id service :
  active_service s id = Some service →
  truthy (get_prop service "active") = true.
Proof.
  unfold active_service.
  destruct (truthy (get s _)); simpl; [|discriminate].
  destruct (truthy (get_prop _ _)) eqn:E; [|discriminate].
  by intros [= <-].
Qed.

(** C1 (as the code has it).  Removing a record its caller owns succeeds; after
    it no listing contains the record (every listed record has a true [active]
    flag, the loop body rejects this id, and an index that is an array no
    longer holds it); the record is still stored under [services/<id>], equal
    to the old one but for [active = false]; and [getServiceById] reports
    "not found or inactive" for it instead of returning it. *)
Theorem removeService_then_reads s address serviceId :
  record_exists s serviceId →
  owned_by s serviceId address →
  let s' := (removeService s address serviceId).2 in
  (removeService s address serviceId).1 = Done
  ∧ (∀ services, listServices s' = Normal services →
       Forall (fun service => truthy (get_prop service "active") = true) services
       ∧ get s' (service_key serviceId) ∉ services)
  ∧ (∀ id, ToString id = serviceId → active_service s' id = None)
  ∧ (∀ ids, get s' index_key = JArr ids → JStr serviceId ∉ ids)
  ∧ getServiceById s' serviceId = NotFoundOrInactive serviceId
  ∧ get s' (service_key serviceId)
    = set_prop (get s (service_key serviceId)) "active" (JBool false)
  ∧ get_prop (get s' (service_key serviceId)) "active" = JBool false.
Proof.
  intros _ Hown s'.
  assert (Hrec := removeService_record s address serviceId Hown).
  fold s' in Hrec.
  destruct (owned_by_object _ _ _ Hown) as [fields Hget].
  assert (Hflag : get_prop (get s' (service_key serviceId)) "active" = JBool false).
  { rewrite Hrec, Hget. apply get_prop_set_prop_eq. }
  assert (Hlisted : ∀ services, listServices s' = Normal services →
            Forall (fun service => truthy (get_prop service "active") = true)
              services).
  { intros services. unfold listServices.
    destruct (iterate _) as [ids|]; [|discriminate]. intros [= <-].
    apply Forall_forall. intros service [id [_ Hid]]%list_elem_of_omap.
    by eapply active_service_Some. }
  split_and!.
  - by rewrite removeService_owner.
  - intros services Hlist. split; [by apply Hlisted|].
    intros Hin. specialize (Hlisted _ Hlist).
    rewrite Forall_forall in Hlisted. apply Hlisted in Hin.
    by rewrite Hflag in Hin.
  - intros id <-. unfold active_service. rewrite Hflag. simpl.
    by rewrite andb_false_r.
  - intros ids. subst s'. rewrite removeService_owner by done. simpl.
    rewrite get_drop_id_ne by apply provider_key_not_index.
    apply get_drop_id_eq.
  - unfold getServiceById. rewrite Hflag. simpl. by rewrite andb_false_r.
  - done.
  - done.
Qed.

Lemma removeService_then_reads_witness :
  record_exists one_service "echo"
  ∧ owned_by one_service "echo" "alice"
  ∧ listServices one_service = Normal [get one_service (service_key "echo")]
  ∧ listServices removed_service = Normal []
  ∧ getServiceById removed_service "echo"
    = NotFoundOrInactive "echo"
  ∧ get_prop (get removed_service
                (service_key "echo")) "active" = JBool false.
Proof.
  assert (Hexists : record_exists one_service "echo") by (vm_compute; reflexivity).
  assert (Hown : owned_by one_service "echo" "alice") by (vm_compute; reflexivity).
  pose proof (removeService_then_reads one_service "alice" "echo" Hexists Hown)
    as (_ & _ & _ & _ & Hget & _ & Hflag).
  split_and!; [exact Hexists | exact Hown | vm_compute; reflexivity
              | vm_compute; reflexivity | exact Hget | exact Hflag].
Defined.

(** C1 (as stated) fails: after a successful removal [getServiceById] does not
    return the record. *)
Lemma getServiceById_after_removeService :
  let s' := removed_service in
  (removeService one_service "alice" "echo").1 = Done
  ∧ getServiceById s' "echo" = NotFoundOrInactive "echo"
  ∧ ¬ ∃ service, getServiceById s' "echo" = Service service.
Proof.
  split_and!; [by vm_compute | by vm_compute |].
  intros [service H]. vm_compute in H. discriminate.
Qed.

Lemma registerService_rejects s address (v : RegisterValue) :
  record_exists s (reg_serviceId v) →
  registerService s address v = (AlreadyExists, s).
Proof. intros Hex. red in Hex. unfold registerService. by rewrite Hex. Qed.

(** C2.  Where a record exists, whatever its [active] flag, [registerService]
    fails with "Service already exists" and writes nothing: the record, the
    global index and every provider index read as before. *)
Theorem registerService_existing s address (v : RegisterValue) :
  record_exists s (reg_serviceId v) →
  registerService s address v = (AlreadyExists, s)
  ∧ get (registerService s address v).2 (service_key (reg_serviceId v))
    = get s (service_key (reg_serviceId v))
  ∧ get (registerService s address v).2 index_key = get s index_key
  ∧ ∀ provider,
      get (registerService s address v).2 (provider_key provider)
      = get s (provider_key provider).
Proof.
  intros Hex. by rewrite registerService_rejects.
Qed.

Lemma registerService_existing_witness :
  record_exists removed_service "echo"
  ∧ lifecycle_of removed_service "echo" = Inactive
  ∧ registerService removed_service "bob" echo_service
    = (AlreadyExists, removed_service).
Proof.
  assert (Hex : record_exists removed_service
                  (reg_serviceId echo_service)) by (vm_compute; reflexivity).
  split_and!; [exact Hex | vm_compute; reflexivity |].
  exact (proj1 (registerService_existing _ "bob" echo_service Hex)).
Defined.

Lemma updateService_owner s address (v : UpdateValue) :
  owned_by s (upd_serviceId v) address →
  updateService s address v
  = (Done,
     put s (service_key (upd_serviceId v))
       (merge_field
          (merge_field
             (merge_field (get s (service_key (upd_serviceId v)))
                "description" (upd_description v))
             "priceInTNK" (upd_priceInTNK v))
          "category" (upd_category v))).
Proof.
  intros Hown. destruct (owned_by_object _ _ _ Hown) as [fields Hget].
  unfold updateService. red in Hown. rewrite Hown, Hget. simpl.
  by rewrite bool_decide_eq_true_2.
Qed.

(** C3.  [updateService] on an id with no record fails with "Service not
    found"; on a record whose [providerAddress] is not the caller it fails
    with "Not authorized"; either way nothing is written.  For the owner it
    rewrites the record: a provided field takes the new text, and every other
    property of the record reads as before. *)
Theorem updateService_cases s address (v : UpdateValue) :
  let key := service_key (upd_serviceId v) in
  let service := get s key in
  (¬ record_exists s (upd_serviceId v) →
     updateService s address v = (NotFound, s))
  ∧ (record_exists s (upd_serviceId v) →
     ¬ owned_by s (upd_serviceId v) address →
     updateService s address v = (Unauthorized, s)
     ∧ get (updateService s address v).2 key = service)
  ∧ (record_exists s (upd_serviceId v) →
     owned_by s (upd_serviceId v) address →
     ∃ service',
       updateService s address v = (Done, put s key service')
       ∧ get (updateService s address v).2 key = service'
       ∧ get_prop service' "description"
         = default (get_prop service "description") (JStr <$> upd_description v)
       ∧ get_prop service' "priceInTNK"
         = default (get_prop service "priceInTNK") (JStr <$> upd_priceInTNK v)
       ∧ get_prop service' "category"
         = default (get_prop service "category") (JStr <$> upd_category v)
       ∧ ∀ name, name ∉ ["description"; "priceInTNK"; "category"] →
           get_prop service' name = get_prop service name).
Proof.
  intros key service. split_and!.
  - intros Hno. unfold record_exists in Hno. apply not_false_is_true in Hno.
    unfold updateService. by rewrite Hno.
  - intros Hex Hnot. red in Hex. unfold owned_by in Hnot.
    assert (H : updateService s address v = (Unauthorized, s)).
    { unfold updateService. rewrite Hex.
      destruct (is_str _ address) eqn:E; [|done].
      by apply is_str_true in E. }
    by rewrite H.
  - intros _ Hown. rewrite updateService_owner by done.
    destruct (owned_by_object _ _ _ Hown) as [fields Hget].
    subst service key. rewrite Hget.
    destruct (merge_field_obj fields "description" (upd_description v))
      as [fields1 H1].
    destruct (merge_field_obj fields1 "priceInTNK" (upd_priceInTNK v))
      as [fields2 H2].
    destruct (merge_field_obj fields2 "category" (upd_category v))
      as [fields3 H3].
    eexists. split; [reflexivity|]. split_and!.
    + simpl. rewrite get_put_eq, H1, H2, H3. done.
    + rewrite !get_prop_merge_field_ne by done.
      apply get_prop_merge_field_eq.
    + rewrite get_prop_merge_field_ne by done.
      rewrite H1, get_prop_merge_field_eq, <- H1.
      by rewrite get_prop_merge_field_ne.
    + rewrite H1, H2, get_prop_merge_field_eq, <- H2, <- H1.
      by rewrite !get_prop_merge_field_ne.
    + intros name Hname.
      rewrite !get_prop_merge_field_ne; [done|..];
        intros <-; apply Hname; set_solver.
Qed.

Lemma updateService_cases_witness :
  (¬ record_exists ∅ "echo" ∧ updateService ∅ "alice" reprice_echo = (NotFound, ∅))
  ∧ (record_exists one_service "echo" ∧ ¬ owned_by one_service "echo" "bob"
     ∧ updateService one_service "bob" reprice_echo = (Unauthorized, one_service))
  ∧ (owned_by one_service "echo" "alice"
     ∧ get_prop (get (updateService one_service "alice" reprice_echo).2
                   (service_key "echo")) "priceInTNK" = JStr "7.5"
     ∧ get_prop (get (updateService one_service "alice" reprice_echo).2
                   (service_key "echo")) "description"
       = JStr "Echo back the input parameters").
Proof.
  assert (Hno : ¬ record_exists ∅ (upd_serviceId reprice_echo))
    by (vm_compute; discriminate).
  assert (Hex : record_exists one_service (upd_serviceId reprice_echo))
    by (vm_compute; reflexivity).
  assert (Hbob : ¬ owned_by one_service (upd_serviceId reprice_echo) "bob")
    by (vm_compute; discriminate).
  assert (Halice : owned_by one_service (upd_serviceId reprice_echo) "alice")
    by (vm_compute; reflexivity).
  split_and!.
  - exact Hno.
  - exact (proj1 (updateService_cases ∅ "alice" reprice_echo) Hno).
  - exact Hex.
  - exact Hbob.
  - exact (proj1 (proj1 (proj2 (updateService_cases one_service "bob" reprice_echo))
                    Hex Hbob)).
  - exact Halice.
  - vm_compute; reflexivity.
  - vm_compute; reflexivity.
Defined.

Lemma lifecycle_of_same_record s s' serviceId :
  get s' (service_key serviceId) = get s (service_key serviceId) →
  lifecycle_of s' serviceId = lifecycle_of s serviceId.
Proof. unfold lifecycle_of. by intros ->. Qed.

(** The transaction left the record of [serviceId] alone. *)
Ltac same_record s :=
  match goal with
  | |- transition _ (lifecycle_of ?s' _) = true =>
      rewrite (lifecycle_of_same_record s s'); [by destruct (lifecycle_of s _)|]
  end.

Lemma transition_refl a : transition a a = true.
Proof. by destruct a. Qed.

Lemma transition_to_inactive a : a ≠ Absent → transition a Inactive = true.
Proof. by destruct a. Qed.

Lemma transition_from_inactive b : transition Inactive b = true → b = Inactive.
Proof. by destruct b. Qed.

Lemma registerService_lifecycle s address (v : RegisterValue) serviceId :
  transition (lifecycle_of s serviceId)
    (lifecycle_of (registerService s address v).2 serviceId) = true.
Proof.
  unfold registerService.
  destruct (is_null (get s (service_key (reg_serviceId v)))) eqn:Hnull; simpl;
    [|apply transition_refl].
  destruct (decide (serviceId = reg_serviceId v)) as [->|Hne].
  - unfold lifecycle_of at 1. rewrite Hnull.
    unfold lifecycle_of.
    rewrite !get_push_id_ne
      by auto using service_key_not_provider, service_key_not_index.
    by rewrite get_put_eq.
  - same_record s.
    rewrite !get_push_id_ne
      by auto using service_key_not_provider, service_key_not_index.
    apply get_put_ne. intros H%service_key_inj. by apply Hne.
Qed.

Lemma updateService_lifecycle s address (v : UpdateValue) serviceId :
  lifecycle_of (updateService s address v).2 serviceId = lifecycle_of s serviceId.
Proof.
  unfold updateService.
  destruct (is_null (get s (service_key (upd_serviceId v)))) eqn:Hnull;
    [done|].
  destruct (is_str _ address) eqn:Hown; [|done]. simpl.
  apply is_str_true in Hown.
  destruct (get_prop_str_obj _ _ _ Hown) as [fields Hget].
  destruct (decide (serviceId = upd_serviceId v)) as [->|Hne].
  - unfold lifecycle_of. rewrite get_put_eq, Hget.
    destruct (merge_field_obj fields "description" (upd_description v))
      as [fields1 H1].
    destruct (merge_field_obj fields1 "priceInTNK" (upd_priceInTNK v))
      as [fields2 H2].
    destruct (merge_field_obj fields2 "category" (upd_category v))
      as [fields3 H3].
    rewrite H1, H2, H3. simpl is_undefined. simpl is_null. cbv iota.
    rewrite <- H3, <- H2, <- H1.
    by rewrite !get_prop_merge_field_ne.
  - apply lifecycle_of_same_record, get_put_ne.
    intros H%service_key_inj. by apply Hne.
Qed.

Lemma removeService_lifecycle s address serviceId' serviceId :
  transition (lifecycle_of s serviceId)
    (lifecycle_of (removeService s address serviceId').2 serviceId) = true.
Proof.
  destruct (is_null (get s (service_key serviceId'))) eqn:Hnull.
  { unfold removeService. rewrite Hnull. apply transition_refl. }
  destruct (is_str (get_prop (get s (service_key serviceId')) "providerAddress")
              address) eqn:Hown.
  2:{ unfold removeService. rewrite Hnull, Hown. apply transition_refl. }
  apply is_str_true in Hown.
  destruct (decide (serviceId = serviceId')) as [->|Hne].
  - assert (lifecycle_of (removeService s address serviceId').2 serviceId'
            = Inactive) as ->.
    { unfold lifecycle_of. rewrite removeService_record by done.
      destruct (get_prop_str_obj _ _ _ Hown) as [fields ->].
      by rewrite get_prop_set_prop_eq. }
    apply transition_to_inactive. unfold lifecycle_of. rewrite Hnull.
    by destruct (truthy _).
  - same_record s.
    rewrite removeService_owner by done. simpl.
    rewrite !get_drop_id_ne
      by auto using service_key_not_provider, service_key_not_index.
    apply get_put_ne. intros H%service_key_inj. by apply Hne.
Qed.

Lemma step_lifecycle s call serviceId :
  transition (lifecycle_of s serviceId) (lifecycle_of (step s call).2 serviceId)
  = true.
Proof.
  destruct call as [address [v|v|serviceId']]; simpl.
  - apply registerService_lifecycle.
  - rewrite updateService_lifecycle. apply transition_refl.
  - apply removeService_lifecycle.
Qed.

Lemma run_inactive calls s serviceId :
  lifecycle_of s serviceId = Inactive →
  lifecycle_of (run s calls) serviceId = Inactive.
Proof.
  revert s. induction calls as [|call calls IH]; intros s Hs; [done|].
  unfold run. simpl. apply IH.
  apply transition_from_inactive. rewrite <- Hs. apply step_lifecycle.
Qed.

(** C4.  Every registry transaction moves each [serviceId] along
    [absent -> active -> inactive] or leaves it where it is; so no sequence of
    [registerService], [updateService] and [removeService] calls, by whatever
    callers, takes an inactive record anywhere else, and [registerService] on
    an inactive id is rejected with "Service already exists", writing nothing. *)
Theorem lifecycle_invariant s serviceId :
  (∀ call,
     transition (lifecycle_of s serviceId)
       (lifecycle_of (step s call).2 serviceId) = true)
  ∧ (lifecycle_of s serviceId = Inactive →
     (∀ calls, lifecycle_of (run s calls) serviceId = Inactive)
     ∧ ∀ address (v : RegisterValue),
         reg_serviceId v = serviceId →
         registerService s address v = (AlreadyExists, s)).
Proof.
  split; [intros call; apply step_lifecycle|].
  intros Hs. split; [intros calls; by apply run_inactive|].
  intros address v <-.
  apply registerService_rejects. unfold record_exists.
  unfold lifecycle_of in Hs.
  by destruct (is_null (get s (service_key (reg_serviceId v)))).
Qed.

Lemma lifecycle_invariant_witness :
  lifecycle_of ∅ "echo" = Absent
  ∧ lifecycle_of one_service "echo" = Active
  ∧ lifecycle_of removed_service "echo" = Inactive
  ∧ lifecycle_of
      (run removed_service
         [("alice", Register echo_service); ("alice", Update reprice_echo);
          ("alice", Remove "echo"); ("bob", Register echo_service)])
      "echo" = Inactive
  ∧ registerService removed_service "alice"
      echo_service
    = (AlreadyExists, removed_service).
Proof.
  assert (Hin : lifecycle_of removed_service "echo"
                = Inactive) by (vm_compute; reflexivity).
  destruct (proj2 (lifecycle_invariant _ _) Hin) as [Hrun Hreg].
  split_and!; [vm_compute; reflexivity | vm_compute; reflexivity | exact Hin
              | apply Hrun | by apply Hreg].
Defined.

End Registry.

(** ** The dispatcher *)
Section DispatcherProperties.
Import Rpc Examples.

Variable JSON_parse : string → option value.

Implicit Types (h : RpcHandler) (channel m : string) (payload json : value).

Lemma js_or_truthy a b : truthy b = true → truthy (js_or a b) = true.
Proof. intros Hb. unfold js_or. by destruct (truthy a) eqn:E. Qed.

Lemma js_or_array_twice a : js_or (js_or a (JArr [])) (JArr []) = js_or a (JArr []).
Proof. unfold js_or at 1. by rewrite js_or_truthy. Qed.

(** A conforming payload parses to the request made of its own fields, with
    [params] defaulting to the empty array. *)
Lemma _parseJsonRpc_conforming payload json m :
  decode JSON_parse payload = Some json →
  conforming json m →
  _parseJsonRpc JSON_parse payload
  = Normal (Some {| jsonrpc := JStr "2.0";
                    method := m;
                    params := js_or (get_prop json "params") (JArr []);
                    id := get_prop json "id" |}).
Proof.
  intros Hdec (Hj & Hm & Hid). unfold _parseJsonRpc. rewrite Hdec.
  destruct (get_prop_str_obj _ _ _ Hj) as [fields ->].
  simpl is_nullish. cbv iota. rewrite Hj, Hm. simpl.
  simpl in Hid. by destruct (default JUndefined (assoc "id" fields)).
Qed.

(** C5 (as the code has it).  On a channel the handler serves, a conforming
    request whose method has no tool is answered with the error envelope
    [jsonrpc "2.0"], code [-32601], and the id of the request. *)
Theorem handleMessage_method_not_found h channel payload json m :
  not_for_us h channel = false →
  decode JSON_parse payload = Some json →
  conforming json m →
  Map_get m (tools h) = None →
  handleMessage JSON_parse h channel payload
  = Normal (Some (JObj [
      ("jsonrpc", JStr "2.0");
      ("error", JObj [ ("code", JNum (-32601));
                       ("message", JStr ("Method not found: " +:+ m)) ]);
      ("id", get_prop json "id") ])).
Proof.
  intros Hserved Hdec Hconf Hnone. unfold handleMessage.
  rewrite Hserved, (_parseJsonRpc_conforming _ _ _ Hdec Hconf). simpl.
  by rewrite Hnone.
Qed.

(** C6 (as the code has it).  On a channel the handler serves, a conforming
    request whose method has a tool runs the handler on the request's params:
    a returned value goes verbatim into a result envelope, whose [result]
    property is there even when the value is [undefined]; a thrown value other
    than [null] and [undefined] gives the error envelope with code [-32000]
    and, as message, the failure's [message] when that is truthy and
    "Internal error" otherwise.  Both echo the id of the request. *)
Theorem handleMessage_tool h channel payload json m tool :
  not_for_us h channel = false →
  decode JSON_parse payload = Some json →
  conforming json m →
  Map_get m (tools h) = Some tool →
  let params := js_or (get_prop json "params") (JArr []) in
  (∀ result, handler tool params = Returns result →
     handleMessage JSON_parse h channel payload
     = Normal (Some (JObj [ ("jsonrpc", JStr "2.0");
                            ("result", result);
                            ("id", get_prop json "id") ])))
  ∧ (∀ err, handler tool params = Throws err → is_nullish err = false →
       handleMessage JSON_parse h channel payload
       = Normal (Some (JObj [
           ("jsonrpc", JStr "2.0");
           ("error", JObj [ ("code", JNum (-32000));
                            ("message",
                             if truthy (get_prop err "message")
                             then get_prop err "message"
                             else JStr "Internal error") ]);
           ("id", get_prop json "id") ]))).
Proof.
  intros Hserved Hdec Hconf Htool params. unfold handleMessage.
  rewrite Hserved, (_parseJsonRpc_conforming _ _ _ Hdec Hconf). simpl.
  rewrite Htool, js_or_array_twice. fold params.
  split.
  - by intros result ->.
  - by intros err -> ->.
Qed.

(** A handler that throws [null] or [undefined]: reading [err.message] in the
    [catch] block throws in turn. *)
Lemma handleMessage_nullish_throw h channel payload json m tool err :
  not_for_us h channel = false →
  decode JSON_parse payload = Some json →
  conforming json m →
  Map_get m (tools h) = Some tool →
  handler tool (js_or (get_prop json "params") (JArr [])) = Throws err →
  is_nullish err = true →
  handleMessage JSON_parse h channel payload = TypeError.
Proof.
  intros Hserved Hdec Hconf Htool Hrun Herr. unfold handleMessage.
  rewrite Hserved, (_parseJsonRpc_conforming _ _ _ Hdec Hconf). simpl.
  by rewrite Htool, js_or_array_twice, Hrun, Herr.
Qed.

(** What [_parseJsonRpc] does with every payload but those whose text decodes
    to [null]: it returns [null] exactly when the payload does not decode, or
    [jsonrpc] is not "2.0", or [method] is not a string, or [id] is
    [undefined]; and it throws exactly when the decoded value is [null] (or
    [undefined]). *)
Lemma _parseJsonRpc_null_iff payload :
  (_parseJsonRpc JSON_parse payload = TypeError
   ↔ ∃ json, decode JSON_parse payload = Some json ∧ is_nullish json = true)
  ∧ (_parseJsonRpc JSON_parse payload = Normal None
     ↔ decode JSON_parse payload = None
       ∨ ∃ json, decode JSON_parse payload = Some json
           ∧ is_nullish json = false
           ∧ (get_prop json "jsonrpc" ≠ JStr "2.0"
              ∨ (∀ m, get_prop json "method" ≠ JStr m)
              ∨ get_prop json "id" = JUndefined)).
Proof.
  split; split.
  - unfold _parseJsonRpc.
    destruct (decode JSON_parse payload) as [json|]; [|done].
    destruct (is_nullish json) eqn:Hn; [by exists json|].
    destruct (negb _); [done|].
    destruct (get_prop json "method"); try done.
    by destruct (is_undefined _).
  - intros (json & Hdec & Hn). unfold _parseJsonRpc. by rewrite Hdec, Hn.
  - unfold _parseJsonRpc.
    destruct (decode JSON_parse payload) as [json|]; [|by left].
    intros H. right. exists json.
    destruct (is_nullish json) eqn:Hn; [done|].
    split_and!; [done..|].
    destruct (is_str (get_prop json "jsonrpc") "2.0") eqn:Hj; simpl in H.
    2:{ left. intros Hj'. apply is_str_true in Hj'. congruence. }
    right.
    destruct (get_prop json "method") eqn:Hm; try (left; congruence).
    right. by destruct (get_prop json "id").
  - intros [Hdec | (json & Hdec & Hn & Hcases)]; unfold _parseJsonRpc;
      rewrite Hdec; [done|]. rewrite Hn.
    destruct (is_str (get_prop json "jsonrpc") "2.0") eqn:Hj; [|done].
    apply is_str_true in Hj. simpl.
    destruct Hcases as [H | [H | H]]; [done| |].
    + destruct (get_prop json "method") as [| | | |m| |]; try done.
      by destruct (H m).
    + rewrite H. by destruct (get_prop json "method").
Qed.

(** Missing [params] default to the empty array. *)
Lemma _parseJsonRpc_params payload request json :
  _parseJsonRpc JSON_parse payload = Normal (Some request) →
  decode JSON_parse payload = Some json →
  get_prop json "params" = JUndefined →
  params request = JArr [].
Proof.
  unfold _parseJsonRpc. intros H Hdec Hparams. rewrite Hdec in H.
  destruct (is_nullish json); [done|].
  destruct (negb _); [done|].
  destruct (get_prop json "method"); try done.
  destruct (is_undefined _); [done|].
  injection H as <-. simpl. by rewrite Hparams.
Qed.

(** C7, at the input where the code departs from it.  The text [null] decodes
    to [null]; the property reads that follow the [try] block then throw, so
    [_parseJsonRpc], and [handleMessage] with it, ends in a TypeError instead
    of returning [null]. *)
Theorem parseJsonRpc_null_text h channel :
  JSON_parse "null" = Some JNull →
  _parseJsonRpc JSON_parse (JStr "null") = TypeError
  ∧ (not_for_us h channel = false →
     handleMessage JSON_parse h channel (JStr "null") = TypeError).
Proof.
  intros Hnull.
  assert (H : _parseJsonRpc JSON_parse (JStr "null") = TypeError).
  { unfold _parseJsonRpc. simpl. by rewrite Hnull. }
  split; [done|]. intros Hserved. unfold handleMessage. by rewrite Hserved, H.
Qed.

(** C10 (as the code has it).  On a channel the handler serves, for a payload
    with [jsonrpc] "2.0" and a string [method], and a tool (if any) that does
    not throw [null] or [undefined]: when [id] is [undefined] the payload is a
    notification and [handleMessage] returns [null]; when [id] is anything
    else ([null], [0], [false], ...) it returns an envelope with that id. *)
Theorem handleMessage_id h channel payload json m :
  not_for_us h channel = false →
  decode JSON_parse payload = Some json →
  get_prop json "jsonrpc" = JStr "2.0" →
  get_prop json "method" = JStr m →
  (∀ tool err,
     Map_get m (tools h) = Some tool →
     handler tool (js_or (get_prop json "params") (JArr [])) = Throws err →
     is_nullish err = false) →
  (get_prop json "id" = JUndefined →
     handleMessage JSON_parse h channel payload = Normal None)
  ∧ (get_prop json "id" ≠ JUndefined →
     ∃ envelope,
       handleMessage JSON_parse h channel payload = Normal (Some envelope)
       ∧ get_prop envelope "jsonrpc" = JStr "2.0"
       ∧ get_prop envelope "id" = get_prop json "id").
Proof.
  intros Hserved Hdec Hj Hm Hthrow. split.
  - intros Hid. unfold handleMessage, _parseJsonRpc.
    rewrite Hserved, Hdec.
    destruct (get_prop_str_obj _ _ _ Hj) as [fields ->].
    simpl is_nullish. cbv iota. by rewrite Hj, Hm, Hid.
  - intros Hid. assert (Hconf : conforming json m) by done.
    unfold handleMessage.
    rewrite Hserved, (_parseJsonRpc_conforming _ _ _ Hdec Hconf). simpl.
    rewrite js_or_array_twice.
    destruct (Map_get m (tools h)) as [tool|] eqn:Htool; [|by eexists].
    destruct (handler tool (js_or (get_prop json "params") (JArr [])))
      as [result|err] eqn:Hrun; [by eexists|].
    rewrite (Hthrow tool err) by done. by eexists.
Qed.

End DispatcherProperties.

Section DispatcherExamples.
Import Rpc Examples.

Lemma handleMessage_method_not_found_witness :
  not_for_us (sample_handler (Some ["rpc"])) "rpc" = false
  ∧ conforming (request_for "nope" (JNum 1)) "nope"
  ∧ handleMessage JSON_parse_literal (sample_handler (Some ["rpc"])) "rpc"
      (request_for "nope" (JNum 1))
    = Normal (Some (errorResponse (-32601) (JStr "Method not found: nope")
                      (JNum 1))).
Proof.
  assert (Hserved : not_for_us (sample_handler (Some ["rpc"])) "rpc" = false)
    by (vm_compute; reflexivity).
  assert (Hconf : conforming (request_for "nope" (JNum 1)) "nope")
    by (split_and!; vm_compute; [reflexivity | reflexivity | discriminate]).
  split_and!; [exact Hserved | exact Hconf |].
  exact (handleMessage_method_not_found JSON_parse_literal
           (sample_handler (Some ["rpc"])) "rpc" (request_for "nope" (JNum 1))
           (request_for "nope" (JNum 1)) "nope"
           Hserved eq_refl Hconf eq_refl).
Defined.

(** C5 (as stated) fails on a channel outside the allow-list: the conforming
    request for an unknown method gets [null], not an error envelope. *)
Lemma method_not_found_off_channel :
  conforming (request_for "nope" (JNum 1)) "nope"
  ∧ Map_get "nope" (tools (sample_handler (Some ["rpc"]))) = None
  ∧ handleMessage JSON_parse_literal (sample_handler (Some ["rpc"])) "chat"
      (request_for "nope" (JNum 1))
    = Normal None
  ∧ ¬ ∃ envelope,
        handleMessage JSON_parse_literal (sample_handler (Some ["rpc"])) "chat"
          (request_for "nope" (JNum 1))
        = Normal (Some envelope).
Proof.
  split_and!; [split_and!; vm_compute; [reflexivity | reflexivity | discriminate]
              | vm_compute; reflexivity | vm_compute; reflexivity |].
  intros [envelope H]. vm_compute in H. discriminate.
Qed.

Lemma handleMessage_tool_witness :
  handleMessage JSON_parse_literal (sample_handler None) "chat"
    (request_for "echo" (JNum 1))
  = Normal (Some (successResponse (JArr [JNum 5; JNum 3]) (JNum 1)))
  ∧ handleMessage JSON_parse_literal (sample_handler None) "chat"
      (request_for "silent" (JNum 2))
    = Normal (Some (JObj [ ("jsonrpc", JStr "2.0");
                           ("result", JUndefined);
                           ("id", JNum 2) ]))
  ∧ handleMessage JSON_parse_literal (sample_handler None) "chat"
      (request_for "boom" (JNum 3))
    = Normal (Some (errorResponse (-32000) (JStr "Internal error") (JNum 3))).
Proof.
  assert (Hconf : ∀ m n, conforming (request_for m (JNum n)) m).
  { intros m n. split_and!; vm_compute; [reflexivity | reflexivity | discriminate]. }
  assert (Htool : ∀ m, is_Some (Map_get m (tools (sample_handler None))) →
            ∃ tool, Map_get m (tools (sample_handler None)) = Some tool).
  { by intros m [tool ->]; exists tool. }
  split_and!.
  - destruct (Htool "echo") as [tool Hget]; [vm_compute; eauto|].
    destruct (handleMessage_tool JSON_parse_literal (sample_handler None) "chat"
                (request_for "echo" (JNum 1)) (request_for "echo" (JNum 1))
                "echo" tool eq_refl eq_refl (Hconf "echo" 1) Hget) as [Hok _].
    injection Hget as <-. exact (Hok _ eq_refl).
  - destruct (Htool "silent") as [tool Hget]; [vm_compute; eauto|].
    destruct (handleMessage_tool JSON_parse_literal (sample_handler None) "chat"
                (request_for "silent" (JNum 2)) (request_for "silent" (JNum 2))
                "silent" tool eq_refl eq_refl (Hconf "silent" 2) Hget) as [Hok _].
    injection Hget as <-. exact (Hok _ eq_refl).
  - destruct (Htool "boom") as [tool Hget]; [vm_compute; eauto|].
    destruct (handleMessage_tool JSON_parse_literal (sample_handler None) "chat"
                (request_for "boom" (JNum 3)) (request_for "boom" (JNum 3))
                "boom" tool eq_refl eq_refl (Hconf "boom" 3) Hget) as [_ Herr].
    injection Hget as <-. exact (Herr _ eq_refl eq_refl).
Defined.

(** C6 (as stated) fails in two ways: the message of the error envelope is
    "Internal error", not the failure's own (empty) message, when that one is
    falsy; and off the allow-list no envelope is returned at all. *)
Lemma handler_failure_message :
  (failing (JArr [JNum 5; JNum 3]) = Throws (JObj [("message", JStr "")])
   ∧ handleMessage JSON_parse_literal (sample_handler None) "chat"
       (request_for "boom" (JNum 1))
     = Normal (Some (errorResponse (-32000) (JStr "Internal error") (JNum 1)))
   ∧ JStr "Internal error" ≠ get_prop (JObj [("message", JStr "")]) "message")
  ∧ handleMessage JSON_parse_literal (sample_handler (Some ["rpc"])) "chat"
      (request_for "echo" (JNum 1))
    = Normal None.
Proof.
  split_and!; [reflexivity | vm_compute; reflexivity | vm_compute; discriminate
              | vm_compute; reflexivity].
Qed.

Lemma parseJsonRpc_null_text_witness :
  JSON_parse_literal "null" = Some JNull
  ∧ _parseJsonRpc JSON_parse_literal (JStr "null") = TypeError
  ∧ handleMessage JSON_parse_literal (sample_handler None) "chat" (JStr "null")
    = TypeError.
Proof.
  destruct (parseJsonRpc_null_text JSON_parse_literal (sample_handler None) "chat"
              eq_refl) as [Hparse Hhandle].
  split_and!; [reflexivity | exact Hparse | exact (Hhandle eq_refl)].
Defined.

Lemma handleMessage_id_witness :
  handleMessage JSON_parse_literal (sample_handler None) "chat"
    (request_for "echo" JUndefined) = Normal None
  ∧ ∀ id, id ∈ [JNull; JNum 0; JBool false] →
      ∃ envelope,
        handleMessage JSON_parse_literal (sample_handler None) "chat"
          (request_for "echo" id) = Normal (Some envelope)
        ∧ get_prop envelope "jsonrpc" = JStr "2.0"
        ∧ get_prop envelope "id" = id.
Proof.
  assert (Hthrow : ∀ id tool err,
            Map_get "echo" (tools (sample_handler None)) = Some tool →
            handler tool (js_or (get_prop (request_for "echo" id) "params")
                            (JArr [])) = Throws err →
            is_nullish err = false).
  { intros id tool err [= <-]. discriminate. }
  split.
  - exact (proj1 (handleMessage_id JSON_parse_literal (sample_handler None)
                    "chat" (request_for "echo" JUndefined)
                    (request_for "echo" JUndefined) "echo"
                    eq_refl eq_refl eq_refl eq_refl (Hthrow JUndefined))
             eq_refl).
  - intros id Hid.
    refine (proj2 (handleMessage_id JSON_parse_literal (sample_handler None)
                     "chat" (request_for "echo" id) (request_for "echo" id)
                     "echo" eq_refl eq_refl eq_refl eq_refl (Hthrow id)) _).
    change (get_prop (request_for "echo" id) "id") with id.
    intros ->. vm_compute in Hid.
    repeat (apply elem_of_cons in Hid as [Hid | Hid]; [discriminate|]).
    by apply elem_of_nil in Hid.
Defined.

(** C10 (as stated) fails on a channel outside the allow-list: the payload
    with [id: null] for a registered method gets [null], not an envelope. *)
Lemma null_id_off_channel :
  get_prop (request_for "echo" JNull) "id" = JNull
  ∧ (∃ tool, Map_get "echo" (tools (sample_handler (Some ["rpc"]))) = Some tool)
  ∧ handleMessage JSON_parse_literal (sample_handler (Some ["rpc"])) "chat"
      (request_for "echo" JNull)
    = Normal None
  ∧ ¬ ∃ envelope,
        handleMessage JSON_parse_literal (sample_handler (Some ["rpc"])) "chat"
          (request_for "echo" JNull)
        = Normal (Some envelope).
Proof.
  split_and!; [vm_compute; reflexivity | eexists; vm_compute; reflexivity
              | vm_compute; reflexivity |].
  intros [envelope H]. vm_compute in H. discriminate.
Qed.

End DispatcherExamples.

(** ** The canonical codec *)
Section CodecProperties.
Import Codec Examples.

(** Induction on values, with the hypothesis for every element of an array
    and every member of an object. *)
Lemma value_nested_ind (P : value → Prop) :
  P JUndefined → P JNull → (∀ b, P (JBool b)) → (∀ n, P (JNum n)) →
  (∀ s, P (JStr s)) →
  (∀ xs, Forall P xs → P (JArr xs)) →
  (∀ fields, Forall (fun kv => P kv.2) fields → P (JObj fields)) →
  ∀ v, P v.
Proof.
  intros Hu Hn Hb Hz Hs Ha Ho. fix IH 1.
  intros [| |b|n|s|xs|fields];
    [apply Hu | apply Hn | apply Hb | apply Hz | apply Hs | |].
  - apply Ha. induction xs as [|x xs IHxs]; constructor; [apply IH | apply IHxs].
  - apply Ho. induction fields as [|[k v] fields IHf]; constructor;
      [apply IH | apply IHf].
Qed.

Lemma assoc_map_values {V W : Type} (f : V → W) k (m : list (string * V)) :
  assoc k (map (fun kv => (kv.1, f kv.2)) m) = f <$> assoc k m.
Proof.
  induction m as [|[k' v] m IH]; simpl; [done|].
  by destruct (bool_decide (k' = k)).
Qed.

Lemma assoc_Some_elem {V : Type} k (v : V) m : assoc k m = Some v → (k, v) ∈ m.
Proof.
  induction m as [|[k' v'] m IH]; simpl; [done|].
  destruct (bool_decide (k' = k)) eqn:E.
  - apply bool_decide_eq_true_1 in E as ->. intros [= ->]. by left.
  - intros H. right. by apply IH.
Qed.

Lemma assoc_None {V : Type} k (m : list (string * V)) :
  assoc k m = None ↔ k ∉ m.*1.
Proof.
  induction m as [|[k' v'] m IH]; simpl.
  - split; [|done]. intros _. apply not_elem_of_nil.
  - rewrite not_elem_of_cons. destruct (bool_decide (k' = k)) eqn:E.
    + apply bool_decide_eq_true_1 in E as ->. split; [done|]. by intros [? _].
    + apply bool_decide_eq_false_1 in E. rewrite IH. split; [|by intros [_ ?]].
      intros H. split; [congruence|done].
Qed.

Lemma assoc_elem_NoDup {V : Type} k (v : V) m :
  NoDup m.*1 → (k, v) ∈ m → assoc k m = Some v.
Proof.
  induction m as [|[k' v'] m IH]; simpl; intros Hnd Hin.
  - by apply elem_of_nil in Hin.
  - apply NoDup_cons in Hnd as [Hk' Hnd].
    apply elem_of_cons in Hin as [[= -> ->] | Hin].
    + by rewrite bool_decide_eq_true_2.
    + rewrite bool_decide_eq_false_2; [by apply IH|].
      intros ->. apply Hk'. apply list_elem_of_fmap. by exists (k, v).
Qed.

Lemma assoc_Permutation {V : Type} k (m m' : list (string * V)) :
  NoDup m.*1 → m ≡ₚ m' → assoc k m = assoc k m'.
Proof.
  intros Hnd Hperm.
  assert (Hnd' : NoDup m'.*1) by by rewrite <- Hperm.
  destruct (assoc k m) as [v|] eqn:E.
  - symmetry. apply assoc_elem_NoDup; [done|].
    rewrite <- Hperm. by apply assoc_Some_elem.
  - symmetry. apply assoc_None. rewrite <- Hperm. by apply assoc_None.
Qed.

(** The object case of [stableStringify] as the source has it:
    [keys.map((key) => `${JSON.stringify(key)}:${stableStringify(value[key])}`)]. *)
Lemma stableStringify_object fields :
  stableStringify (JObj fields)
  = "{" +:+ join ","
              (map (fun key =>
                      member key (stableStringify (get_prop (JObj fields) key)))
                   (sort_keys (Object_keys fields)))
        +:+ "}".
Proof.
  cbn [stableStringify]. do 3 f_equal. apply map_ext. intros key.
  rewrite (assoc_map_values stableStringify). simpl.
  by destruct (assoc key fields).
Qed.

Lemma sort_keys_Sorted keys : Sorted String.le (sort_keys keys).
Proof. apply (Sorted_merge_sort String.le). Qed.

Lemma sort_keys_Permutation keys : sort_keys keys ≡ₚ keys.
Proof. apply merge_sort_Permutation. Qed.

(** Sorting forgets the order the keys came in. *)
Lemma sort_keys_order keys keys' : keys ≡ₚ keys' → sort_keys keys = sort_keys keys'.
Proof.
  intros Hperm. apply (Sorted_unique String.le); try apply sort_keys_Sorted.
  by rewrite !sort_keys_Permutation.
Qed.

Lemma same_members_keys fields reordered :
  Forall2 (fun kv kv' : string * value => kv.1 = kv'.1 ∧ same kv.2 kv'.2)
    fields reordered →
  fields.*1 = reordered.*1.
Proof.
  induction 1 as [|[k v] [k' v'] fields reordered [Hk _] _ IH]; [done|].
  csimpl in *. by rewrite Hk, IH.
Qed.

Lemma same_members_assoc fields reordered key v :
  Forall2 (fun kv kv' : string * value => kv.1 = kv'.1 ∧ same kv.2 kv'.2)
    fields reordered →
  assoc key fields = Some v →
  ∃ v', assoc key reordered = Some v' ∧ same v v'.
Proof.
  induction 1 as [|[k w] [k' w'] ?? [Hk Hw] ? IH]; simpl in *; [done|].
  subst k'. destruct (bool_decide (k = key)); [|done].
  intros [= ->]. eauto.
Qed.

Lemma stableStringify_elements xs ys :
  Forall (fun a => ∀ b, well_formed a → same a b →
                        stableStringify a = stableStringify b) xs →
  Forall well_formed xs →
  Forall2 same xs ys →
  map stableStringify xs = map stableStringify ys.
Proof.
  intros IH Hwf Hsame.
  induction Hsame as [|x y xs ys Hxy _ IHrest]; [done|].
  apply Forall_cons in IH as [IHx IHxs].
  apply Forall_cons in Hwf as [Hwx Hwxs].
  simpl. f_equal; [by apply IHx | by apply IHrest].
Qed.

Lemma stableStringify_same a :
  ∀ b, well_formed a → same a b → stableStringify a = stableStringify b.
Proof.
  induction a as [| | | | |xs IH|fields IH] using value_nested_ind;
    intros a' Hwf Hsame; inversion Hsame; subst; try done.
  - (* arrays *)
    inversion Hwf as [| | | | |? Hwfs|]; subst.
    cbn [stableStringify]. do 3 f_equal. by apply stableStringify_elements.
  - (* objects *)
    inversion Hwf as [| | | | | |? Hnd Hwfs]; subst.
    match goal with
    | Hp : _ ≡ₚ reordered, Hm : Forall2 _ fields reordered |- _ =>
        rename Hp into Hperm; rename Hm into Hmem
    end.
    assert (Hkeys : Object_keys fields = Object_keys reordered)
      by by apply same_members_keys.
    rewrite !stableStringify_object.
    assert (Hsort : sort_keys (Object_keys fields) = sort_keys (Object_keys fields')).
    { apply sort_keys_order. rewrite Hkeys. unfold Object_keys. by rewrite Hperm. }
    rewrite <- Hsort. do 3 f_equal.
    apply map_ext_in. intros key Hin.
    apply list_elem_of_In in Hin. rewrite sort_keys_Permutation in Hin.
    unfold Object_keys in Hin. apply list_elem_of_fmap in Hin as [[k v] [-> Hkv]].
    simpl.
    assert (Hv : assoc k fields = Some v) by by apply assoc_elem_NoDup.
    destruct (same_members_assoc _ _ _ _ Hmem Hv) as (v' & Hv' & Hvv').
    rewrite Hv. rewrite (assoc_Permutation k fields' reordered), Hv'; [|..|done].
    2:{ rewrite Hperm. unfold Object_keys in Hkeys. by rewrite <- Hkeys. }
    simpl. f_equal.
    rewrite Forall_forall in IH. rewrite Forall_forall in Hwfs.
    apply (IH (k, v)); [done|by apply (Hwfs (k, v))|done].
Qed.

(** C8.  Structurally equal values have the same canonical encoding, whatever
    the order their keys were inserted in; [null] and [undefined] encode as
    [null]; an object emits its keys in ascending lexicographic order, each
    with the encoding of its own value; and [{"b":2,"a":1}] and
    [{"a":1,"b":2}] encode to the same text. *)
Theorem stableStringify_canonical :
  (∀ a b, well_formed a → same a b → stableStringify a = stableStringify b)
  ∧ stableStringify JNull = "null"
  ∧ stableStringify JUndefined = "null"
  ∧ (∀ fields,
       Sorted String.le (sort_keys (Object_keys fields))
       ∧ sort_keys (Object_keys fields) ≡ₚ Object_keys fields
       ∧ stableStringify (JObj fields)
         = "{" +:+ join ","
                     (map (fun key =>
                             member key
                               (stableStringify (get_prop (JObj fields) key)))
                          (sort_keys (Object_keys fields)))
               +:+ "}")
  ∧ stableStringify b_then_a = stableStringify a_then_b
  ∧ stableStringify a_then_b
    = "{" +:+ quoted "a" +:+ ":1," +:+ quoted "b" +:+ ":2}".
Proof.
  split_and!.
  - intros a b. apply stableStringify_same.
  - done.
  - done.
  - intros fields. split_and!.
    + apply sort_keys_Sorted.
    + apply sort_keys_Permutation.
    + apply stableStringify_object.
  - vm_compute. reflexivity.
  - vm_compute. reflexivity.
Qed.

Lemma stableStringify_canonical_witness :
  well_formed b_then_a
  ∧ same b_then_a a_then_b
  ∧ stableStringify b_then_a = stableStringify a_then_b.
Proof.
  assert (Hwf : well_formed b_then_a).
  { constructor.
    - apply (bool_decide_unpack _). vm_compute. exact I.
    - repeat constructor. }
  assert (Hsame : same b_then_a a_then_b).
  { apply (same_obj _ _ [("b", JNum 2); ("a", JNum 1)]).
    - apply Permutation_swap.
    - repeat constructor. }
  split_and!; [exact Hwf | exact Hsame |].
  exact (proj1 stableStringify_canonical b_then_a a_then_b Hwf Hsame).
Defined.

End CodecProperties.

(** ** Invite issuance *)
Section InviteProperties.
Import Invite Examples.

(** *** Whole doubles *)







(** *** The command *)







(** Seconds that are finite but whose milliseconds are not pass the TTL
    check: [Number.isFinite] is asked before the multiplication, and
    [Infinity] is neither falsy nor below zero.  The invite then carries an
    infinite expiry, which is signed and printed as [null]. *)
Lemma sc_invite_overflow :
  ∃ invite,
    sc_invite (peer_with JUndefined) (invite_args (JStr huge_ttl)) = Issued invite
    ∧ (∃ ttlSec, parseInt huge_ttl = Finite ttlSec)
    ∧ expiresAt (payload invite) = PosInfinity
    ∧ get_prop (payload_object (payload invite)) "expiresAt" = JNull.
Proof.
  eexists. split; [vm_compute; reflexivity|].
  split_and!; [|reflexivity|reflexivity].
  eexists. vm_compute. reflexivity.
Qed.

End InviteProperties.

(** ** The service registry: registration, frames, indices *)
Section RegistryMore.
Import Contract Examples.

Implicit Types (s : store) (key serviceId address : string) (v : value).

Lemma provider_key_inj address address' :
  provider_key address = provider_key address' → address = address'.
Proof. apply (inj (String.app "providers/")). Qed.

Lemma get_push_id_eq s key serviceId :
  get (push_id s key serviceId) key
  = JArr (array_elements (get s key) ++ [JStr serviceId]).
Proof.
  unfold push_id, js_or.
  destruct (get s key) as [| |[]|n|t|ids|fields] eqn:E; simpl;
    try by rewrite get_put_eq.
  - by destruct (negb (n =? 0)); simpl; rewrite get_put_eq.
  - by destruct (negb (bool_decide (t = ""))); simpl; rewrite get_put_eq.
Qed.

(** The record [registerService] writes. *)
Lemma registerService_fresh_store s address (r : RegisterValue) :
  ¬ record_exists s (reg_serviceId r) →
  registerService s address r
  = (Done,
     push_id
       (push_id
          (put s (service_key (reg_serviceId r))
             (JObj [
                ("serviceId", JStr (reg_serviceId r));
                ("method", JStr (reg_method r));
                ("description", JStr (reg_description r));
                ("priceInTNK", JStr (reg_priceInTNK r));
                ("category", js_or (optional (reg_category r)) (JStr "general"));
                ("providerAddress", JStr address);
                ("timestamp", get s "currentTime");
                ("active", JBool true) ]))
          index_key (reg_serviceId r))
       (provider_key address) (reg_serviceId r)).
Proof.
  intros Hno. unfold record_exists in Hno. apply not_false_is_true in Hno.
  unfold registerService. by rewrite Hno.
Qed.

Lemma registerService_fresh_record s address (r : RegisterValue) :
  ¬ record_exists s (reg_serviceId r) →
  ∃ record,
    (registerService s address r).1 = Done
    ∧ get (registerService s address r).2 (service_key (reg_serviceId r)) = record
    ∧ getServiceById (registerService s address r).2 (reg_serviceId r)
      = Service record
    ∧ get_prop record "serviceId" = JStr (reg_serviceId r)
    ∧ get_prop record "method" = JStr (reg_method r)
    ∧ get_prop record "description" = JStr (reg_description r)
    ∧ get_prop record "priceInTNK" = JStr (reg_priceInTNK r)
    ∧ get_prop record "category"
      = JStr (match reg_category r with
              | Some category => if bool_decide (category = "") then "general"
                                 else category
              | None => "general"
              end)
    ∧ get_prop record "providerAddress" = JStr address
    ∧ get_prop record "timestamp" = get s "currentTime"
    ∧ get_prop record "active" = JBool true.
Proof.
  intros Hno. rewrite registerService_fresh_store by done.
  eexists. split; [done|].
  assert (Hget : ∀ record,
            get (push_id (push_id (put s (service_key (reg_serviceId r))
                                     (JObj record))
                            index_key (reg_serviceId r))
                   (provider_key address) (reg_serviceId r))
              (service_key (reg_serviceId r)) = JObj record).
  { intros record.
    rewrite !get_push_id_ne
      by auto using service_key_not_provider, service_key_not_index.
    by rewrite get_put_eq. }
  split; [apply Hget|]. split.
  { unfold getServiceById. cbn [snd]. by rewrite Hget. }
  split_and!; try done.
  simpl. destruct (reg_category r) as [category|]; simpl; [|done].
  unfold js_or. simpl. by destruct (bool_decide (category = "")).
Qed.


(** X1.  Registering an id that has no record succeeds and stores a record
    with the submitted fields, the caller as provider, the current time as
    timestamp and [active = true]; a missing or empty category becomes
    "general"; [getServiceById] then returns that record. *)
Theorem registerService_fresh s address (r : RegisterValue) :
  ¬ record_exists s (reg_serviceId r) →
  ∃ record,
    (registerService s address r).1 = Done
    ∧ get (registerService s address r).2 (service_key (reg_serviceId r)) = record
    ∧ getServiceById (registerService s address r).2 (reg_serviceId r)
      = Service record
    ∧ get_prop record "serviceId" = JStr (reg_serviceId r)
    ∧ get_prop record "method" = JStr (reg_method r)
    ∧ get_prop record "description" = JStr (reg_description r)
    ∧ get_prop record "priceInTNK" = JStr (reg_priceInTNK r)
    ∧ get_prop record "category"
      = JStr (match reg_category r with
              | Some category => if bool_decide (category = "") then "general"
                                 else category
              | None => "general"
              end)
    ∧ get_prop record "providerAddress" = JStr address
    ∧ get_prop record "timestamp" = get s "currentTime"
    ∧ get_prop record "active" = JBool true.
Proof. apply registerService_fresh_record. Qed.

Lemma registerService_fresh_witness :
  ¬ record_exists (∅ : store) "echo"
  ∧ ∃ record,
      getServiceById one_service "echo" = Service record
      ∧ get_prop record "category" = JStr "utilities"
      ∧ get_prop record "providerAddress" = JStr "alice"
      ∧ get_prop record "active" = JBool true.
Proof.
  assert (Hno : ¬ record_exists (∅ : store) (reg_serviceId echo_service))
    by (vm_compute; discriminate).
  split; [exact Hno|].
  destruct (registerService_fresh ∅ "alice" echo_service Hno)
    as (record & _ & _ & Hread & _ & _ & _ & _ & Hcat & Hown & _ & Hact).
  exists record. split_and!; [exact Hread | exact Hcat | exact Hown | exact Hact].
Defined.

Lemma active_service_record s serviceId :
  lifecycle_of s serviceId = Active →
  active_service s (JStr serviceId) = Some (get s (service_key serviceId)).
Proof.
  unfold lifecycle_of, active_service. cbn [ToString].
  destruct (is_null _); [done|].
  destruct (truthy (get_prop _ "active")) eqn:Hactive; [|done]. intros _.
  by destruct (get s (service_key serviceId)).
Qed.

(** X2.  A successful registration appends the id to the global index and to
    the caller's provider index (an index that was missing or not an array
    starts afresh), so the new record is in the output of [listServices] and
    of [getProviderServices] for the caller. *)
Theorem registerService_indexed s address (r : RegisterValue) :
  ¬ record_exists s (reg_serviceId r) →
  let s' := (registerService s address r).2 in
  get s' index_key
  = JArr (array_elements (get s index_key) ++ [JStr (reg_serviceId r)])
  ∧ get s' (provider_key address)
    = JArr (array_elements (get s (provider_key address))
              ++ [JStr (reg_serviceId r)])
  ∧ (∃ services, listServices s' = Normal services
       ∧ get s' (service_key (reg_serviceId r)) ∈ services)
  ∧ (∃ services, getProviderServices s' address = Normal services
       ∧ get s' (service_key (reg_serviceId r)) ∈ services).
Proof.
  intros Hno s'.
  destruct (registerService_fresh_record s address r Hno)
    as (record & _ & Hrec & _ & _ & _ & _ & _ & _ & _ & _ & Hactive).
  fold s' in Hrec.
  assert (Hlife : lifecycle_of s' (reg_serviceId r) = Active).
  { unfold lifecycle_of. rewrite Hrec, Hactive. simpl.
    destruct record; simpl in *; try done. }
  assert (Hindex : get s' index_key
            = JArr (array_elements (get s index_key) ++ [JStr (reg_serviceId r)])).
  { subst s'. rewrite registerService_fresh_store by done. cbn [snd].
    rewrite get_push_id_ne by apply provider_key_not_index.
    rewrite get_push_id_eq, get_put_ne; [done|].
    intros H. by apply (service_key_not_index (reg_serviceId r)). }
  assert (Hprov : get s' (provider_key address)
            = JArr (array_elements (get s (provider_key address))
                      ++ [JStr (reg_serviceId r)])).
  { subst s'. rewrite registerService_fresh_store by done. cbn [snd].
    rewrite get_push_id_eq, get_push_id_ne, get_put_ne; [done|..].
    - intros H. by apply (service_key_not_provider (reg_serviceId r) address).
    - intros H. by apply (provider_key_not_index address). }
  split_and!; [done | done | |].
  - unfold listServices. rewrite Hindex. simpl. eexists. split; [done|].
    apply list_elem_of_omap. exists (JStr (reg_serviceId r)).
    split; [set_solver|]. by apply active_service_record.
  - unfold getProviderServices. rewrite Hprov. simpl. eexists. split; [done|].
    apply list_elem_of_omap. exists (JStr (reg_serviceId r)).
    split; [set_solver|]. by apply active_service_record.
Qed.

Lemma registerService_indexed_witness :
  ¬ record_exists (∅ : store) "echo"
  ∧ get one_service index_key = JArr [JStr "echo"]
  ∧ get one_service (provider_key "alice") = JArr [JStr "echo"]
  ∧ listServices one_service = Normal [get one_service (service_key "echo")].
Proof.
  assert (Hno : ¬ record_exists (∅ : store) (reg_serviceId echo_service))
    by (vm_compute; discriminate).
  destruct (registerService_indexed ∅ "alice" echo_service Hno)
    as (Hindex & Hprov & _ & _).
  split_and!; [exact Hno | exact Hindex | exact Hprov | vm_compute; reflexivity].
Defined.

(** X3.  [removeService] on an id with no record fails with "Service not
    found", and by a caller who is not the record's provider with
    "Not authorized"; neither writes anything. *)
Theorem removeService_errors s address serviceId :
  (¬ record_exists s serviceId →
     removeService s address serviceId = (NotFound, s))
  ∧ (record_exists s serviceId → ¬ owned_by s serviceId address →
     removeService s address serviceId = (Unauthorized, s)).
Proof.
  split.
  - intros Hno. unfold record_exists in Hno. apply not_false_is_true in Hno.
    unfold removeService. by rewrite Hno.
  - intros Hex Hnot. red in Hex. unfold owned_by in Hnot.
    unfold removeService. rewrite Hex.
    destruct (is_str _ address) eqn:E; [|done].
    by apply is_str_true in E.
Qed.

Lemma removeService_errors_witness :
  ¬ record_exists (∅ : store) "echo"
  ∧ removeService ∅ "alice" "echo" = (NotFound, ∅)
  ∧ record_exists one_service "echo"
  ∧ ¬ owned_by one_service "echo" "bob"
  ∧ removeService one_service "bob" "echo" = (Unauthorized, one_service).
Proof.
  assert (Hno : ¬ record_exists (∅ : store) "echo") by (vm_compute; discriminate).
  assert (Hex : record_exists one_service "echo") by (vm_compute; reflexivity).
  assert (Hbob : ¬ owned_by one_service "echo" "bob")
    by (vm_compute; discriminate).
  split_and!; [exact Hno | | exact Hex | exact Hbob |].
  - exact (proj1 (removeService_errors ∅ "alice" "echo") Hno).
  - exact (proj2 (removeService_errors one_service "bob" "echo") Hex Hbob).
Defined.

Lemma lookup_push_id_ne s key key' serviceId :
  key ≠ key' → push_id s key serviceId !! key' = s !! key'.
Proof.
  intros Hne. unfold push_id, put.
  destruct (js_or (get s key) (JArr [])); simpl; by rewrite ?lookup_insert_ne.
Qed.

Lemma lookup_drop_id_ne s key key' serviceId :
  key ≠ key' → drop_id s key serviceId !! key' = s !! key'.
Proof.
  intros Hne. unfold drop_id, put.
  destruct (js_or (get s key) (JArr [])); simpl; by rewrite ?lookup_insert_ne.
Qed.

Lemma step_writes s call key :
  key ∉ written call → snd (step s call) !! key = s !! key.
Proof.
  destruct call as [address [r|u|serviceId]]; simpl; intros Hkey.
  - apply not_elem_of_cons in Hkey as [H1 Hkey].
    apply not_elem_of_cons in Hkey as [H2 Hkey].
    apply not_elem_of_cons in Hkey as [H3 _].
    unfold registerService. destruct (negb _); [done|]. cbn [snd].
    rewrite !lookup_push_id_ne by done. unfold put. by rewrite lookup_insert_ne.
  - apply not_elem_of_cons in Hkey as [H1 _].
    unfold updateService. destruct (is_null _); [done|].
    destruct (negb _); [done|]. cbn [snd]. unfold put.
    by rewrite lookup_insert_ne.
  - apply not_elem_of_cons in Hkey as [H1 Hkey].
    apply not_elem_of_cons in Hkey as [H2 Hkey].
    apply not_elem_of_cons in Hkey as [H3 _].
    unfold removeService. destruct (is_null _); [done|].
    destruct (negb _); [done|]. cbn [snd].
    rewrite !lookup_drop_id_ne by done. unfold put. by rewrite lookup_insert_ne.
Qed.


(** X4.  A transaction writes no key but its own: the record of the id it
    names, and for a registration or a removal the global index and the
    caller's provider index.  Records of other ids, indices of other
    providers and [currentTime] are left as they are. *)
Theorem step_frame s call key :
  key ∉ written call →
  snd (step s call) !! key = s !! key
  ∧ get (step s call).2 key = get s key.
Proof.
  intros Hkey. split; [by apply step_writes|].
  unfold get. by rewrite step_writes.
Qed.

Lemma step_frame_witness :
  (service_key "other" ∉ written ("alice", Remove "echo"))
  ∧ snd (step one_service ("alice", Remove "echo")) !! service_key "other"
    = one_service !! service_key "other".
Proof.
  assert (H : service_key "other" ∉ written ("alice", Remove "echo")).
  { apply (bool_decide_unpack _). vm_compute. exact I. }
  split; [exact H|]. exact (proj1 (step_frame one_service _ _ H)).
Defined.

Lemma step_other_record s call serviceId :
  service_key serviceId ∉ written call →
  get (step s call).2 (service_key serviceId) = get s (service_key serviceId).
Proof. intros H. unfold get. by rewrite step_writes. Qed.

Lemma record_exists_lifecycle s serviceId :
  record_exists s serviceId ↔ lifecycle_of s serviceId ≠ Absent.
Proof.
  unfold record_exists, lifecycle_of.
  destruct (is_null _); [by split|].
  by destruct (truthy _).
Qed.

Lemma step_record_exists s call serviceId :
  record_exists s serviceId → record_exists (step s call).2 serviceId.
Proof.
  rewrite !record_exists_lifecycle. intros Hs Hs'.
  pose proof (step_lifecycle s call serviceId) as H. rewrite Hs' in H.
  by destruct (lifecycle_of s serviceId).
Qed.

Lemma step_fixed_fields s call serviceId name :
  record_exists s serviceId →
  name ∉ ["description"; "priceInTNK"; "category"; "active"] →
  get_prop (get (step s call).2 (service_key serviceId)) name
  = get_prop (get s (service_key serviceId)) name.
Proof.
  intros Hex Hname.
  assert (Hd : "description" ≠ name) by (intros <-; apply Hname; set_solver).
  assert (Hp : "priceInTNK" ≠ name) by (intros <-; apply Hname; set_solver).
  assert (Hc : "category" ≠ name) by (intros <-; apply Hname; set_solver).
  assert (Ha : "active" ≠ name) by (intros <-; apply Hname; set_solver).
  destruct call as [address [r|u|serviceId']]; simpl.
  - destruct (decide (serviceId = reg_serviceId r)) as [->|Hne].
    + by rewrite registerService_rejects.
    + rewrite (step_other_record s (address, Register r)); [done|].
      simpl. rewrite !not_elem_of_cons. split_and!.
      * intros H%service_key_inj. by apply Hne.
      * intros H. by apply (service_key_not_index serviceId).
      * intros H. by apply (service_key_not_provider serviceId address).
      * apply not_elem_of_nil.
  - destruct (decide (serviceId = upd_serviceId u)) as [->|Hne].
    + unfold updateService. destruct (is_null _); [done|].
      destruct (is_str _ address) eqn:Hown; [|done]. cbn [negb snd].
      apply is_str_true in Hown.
      destruct (get_prop_str_obj _ _ _ Hown) as [fields Hget].
      rewrite get_put_eq, Hget.
      destruct (merge_field_obj fields "description" (upd_description u))
        as [fields1 H1].
      destruct (merge_field_obj fields1 "priceInTNK" (upd_priceInTNK u))
        as [fields2 H2].
      destruct (merge_field_obj fields2 "category" (upd_category u))
        as [fields3 H3].
      rewrite H1, H2, H3. cbn [is_undefined]. rewrite <- H3, <- H2, <- H1.
      by rewrite !get_prop_merge_field_ne.
    + rewrite (step_other_record s (address, Update u)); [done|].
      simpl. rewrite !not_elem_of_cons. split; [|apply not_elem_of_nil].
      intros H%service_key_inj. by apply Hne.
  - destruct (decide (serviceId = serviceId')) as [->|Hne].
    + destruct (is_null (get s (service_key serviceId'))) eqn:Hnull;
        [by unfold removeService; rewrite Hnull|].
      destruct (is_str (get_prop (get s (service_key serviceId'))
                          "providerAddress") address) eqn:Hown;
        [|by unfold removeService; rewrite Hnull, Hown].
      apply is_str_true in Hown. rewrite removeService_record by done.
      by rewrite get_prop_set_prop_ne.
    + rewrite (step_other_record s (address, Remove serviceId')); [done|].
      simpl. rewrite !not_elem_of_cons. split_and!.
      * intros H%service_key_inj. by apply Hne.
      * intros H. by apply (service_key_not_index serviceId).
      * intros H. by apply (service_key_not_provider serviceId address).
      * apply not_elem_of_nil.
Qed.

(** X5.  Once a record exists, no sequence of transactions deletes it or
    changes any of its properties other than [description], [priceInTNK],
    [category] and [active]: its [serviceId], [method], [providerAddress]
    and [timestamp] stay what registration made them. *)
Theorem run_fixed_fields calls s serviceId name :
  record_exists s serviceId →
  name ∉ ["description"; "priceInTNK"; "category"; "active"] →
  record_exists (run s calls) serviceId
  ∧ get_prop (get (run s calls) (service_key serviceId)) name
    = get_prop (get s (service_key serviceId)) name.
Proof.
  intros Hex Hname. revert s Hex.
  induction calls as [|call calls IH]; intros s Hex; [done|].
  unfold run. simpl.
  destruct (IH (step s call).2) as [Hex' Hsame];
    [by apply step_record_exists|].
  split; [done|]. unfold run in Hsame. rewrite Hsame.
  by apply step_fixed_fields.
Qed.

Lemma run_fixed_fields_witness :
  record_exists one_service "echo"
  ∧ ("providerAddress" ∉ ["description"; "priceInTNK"; "category"; "active"])
  ∧ get_prop
      (get (run one_service
              [("alice", Update reprice_echo); ("bob", Register echo_service);
               ("alice", Remove "echo")])
         (service_key "echo")) "providerAddress"
    = JStr "alice".
Proof.
  assert (Hex : record_exists one_service "echo") by (vm_compute; reflexivity).
  assert (Hname : "providerAddress"
                  ∉ ["description"; "priceInTNK"; "category"; "active"]).
  { apply (bool_decide_unpack _). vm_compute. exact I. }
  split_and!; [exact Hex | exact Hname |].
  exact (proj2 (run_fixed_fields _ one_service "echo" "providerAddress"
                  Hex Hname)).
Defined.

Lemma get_lookup s s' key key' :
  s' !! key' = s !! key → get s' key' = get s key.
Proof. unfold get. by intros ->. Qed.

Lemma filter_twice {A : Type} (f : A → bool) (l : list A) :
  List.filter f (List.filter f l) = List.filter f l.
Proof.
  induction l as [|x l IH]; simpl; [done|].
  destruct (f x) eqn:E; simpl; by rewrite ?E, IH.
Qed.

Lemma lookup_drop_id_eq s key serviceId :
  drop_id s key serviceId !! key
  = match js_or (get s key) (JArr []) with
    | JArr ids =>
        Some (JArr (List.filter (fun id => negb (is_str id serviceId)) ids))
    | _ => s !! key
    end.
Proof.
  unfold drop_id, put.
  destruct (js_or (get s key) (JArr [])); try done. by rewrite lookup_insert_eq.
Qed.

(** A store that holds, under [key], what [drop_id] left there is not changed
    under [key] by another [drop_id]. *)
Lemma lookup_drop_id_again s s' key serviceId :
  s' !! key = drop_id s key serviceId !! key →
  drop_id s' key serviceId !! key = s' !! key.
Proof.
  rewrite !lookup_drop_id_eq. intros H.
  destruct (js_or (get s key) (JArr [])) as [| | | | |ids|fields] eqn:Es.
  all: try (by rewrite (get_lookup _ _ _ _ H), Es).
  unfold get. rewrite H. simpl. by rewrite filter_twice.
Qed.

Lemma assign_twice k v fields : assign k v (assign k v fields) = assign k v fields.
Proof.
  induction fields as [|[k' v'] rest IH]; simpl.
  - by rewrite bool_decide_eq_true_2.
  - destruct (bool_decide (k' = k)) eqn:E; simpl.
    + by rewrite bool_decide_eq_true_2.
    + by rewrite E, IH.
Qed.

(** X6.  Removing a service a second time succeeds again and changes nothing:
    for its provider [removeService] is idempotent. *)
Theorem removeService_twice s address serviceId :
  owned_by s serviceId address →
  removeService (removeService s address serviceId).2 address serviceId
  = (Done, (removeService s address serviceId).2).
Proof.
  intros Hown.
  destruct (owned_by_object _ _ _ Hown) as [fields Hfields].
  set (s1 := (removeService s address serviceId).2).
  assert (Hrec : s1 !! service_key serviceId
                 = Some (JObj (assign "active" (JBool false) fields))).
  { subst s1. rewrite removeService_owner by done. cbn [snd].
    rewrite !lookup_drop_id_ne
      by auto using service_key_not_provider, service_key_not_index.
    unfold put. by rewrite lookup_insert_eq, Hfields. }
  assert (Hown1 : owned_by s1 serviceId address).
  { unfold owned_by, get. rewrite Hrec. red in Hown. rewrite Hfields in Hown.
    simpl in *. by rewrite assoc_assign_ne. }
  rewrite removeService_owner by done. f_equal.
  assert (Hput : put s1 (service_key serviceId)
                   (set_prop (get s1 (service_key serviceId)) "active"
                      (JBool false)) = s1).
  { unfold put, get. rewrite Hrec. simpl. rewrite assign_twice.
    by apply insert_id. }
  rewrite Hput. apply map_eq. intros key.
  destruct (decide (key = provider_key address)) as [->|Hp].
  { rewrite lookup_drop_id_again with (s := drop_id (put s (service_key serviceId)
               (set_prop (get s (service_key serviceId)) "active" (JBool false)))
               index_key serviceId).
    - by rewrite lookup_drop_id_ne by apply not_eq_sym, provider_key_not_index.
    - rewrite lookup_drop_id_ne by apply not_eq_sym, provider_key_not_index.
      subst s1. by rewrite removeService_owner. }
  rewrite lookup_drop_id_ne by done.
  destruct (decide (key = index_key)) as [->|Hi]; [|by rewrite lookup_drop_id_ne].
  apply lookup_drop_id_again with (s := put s (service_key serviceId)
           (set_prop (get s (service_key serviceId)) "active" (JBool false))).
  subst s1. rewrite removeService_owner by done. cbn [snd].
  by rewrite lookup_drop_id_ne by apply provider_key_not_index.
Qed.

Lemma removeService_twice_witness :
  owned_by one_service "echo" "alice"
  ∧ removeService removed_service "alice" "echo" = (Done, removed_service).
Proof.
  assert (Hown : owned_by one_service "echo" "alice") by (vm_compute; reflexivity).
  split; [exact Hown|]. exact (removeService_twice one_service "alice" "echo" Hown).
Defined.

Lemma indexed_get s s' key ids :
  get s' key = get s key → indexed s key ids → indexed s' key ids.
Proof. unfold indexed. by intros ->. Qed.

Lemma indexed_elements s key ids :
  indexed s key ids → array_elements (get s key) = JStr <$> ids.
Proof. by intros [-> | [-> ->]]. Qed.

Lemma elem_of_other_than serviceId ids x :
  x ∈ other_than serviceId ids ↔ x ∈ ids ∧ x ≠ serviceId.
Proof.
  unfold other_than. rewrite !list_elem_of_In, filter_In, negb_true_iff.
  by rewrite bool_decide_eq_false.
Qed.

Lemma NoDup_other_than serviceId ids :
  NoDup ids → NoDup (other_than serviceId ids).
Proof.
  induction 1 as [|x ids Hx Hnd IH]; [constructor|].
  unfold other_than. simpl. fold (other_than serviceId ids).
  destruct (negb _); [|done]. constructor; [|done].
  rewrite elem_of_other_than. by intros [? _].
Qed.

Lemma filter_ids serviceId ids :
  List.filter (fun id => negb (is_str id serviceId)) (JStr <$> ids)
  = JStr <$> other_than serviceId ids.
Proof.
  induction ids as [|x ids IH]; [done|]. csimpl.
  destruct (bool_decide (x = serviceId)); csimpl; by rewrite IH.
Qed.

Lemma push_id_indexed s key serviceId ids :
  indexed s key ids → indexed (push_id s key serviceId) key (ids ++ [serviceId]).
Proof.
  intros H. left. rewrite get_push_id_eq, (indexed_elements _ _ _ H).
  by rewrite fmap_app.
Qed.

Lemma drop_id_indexed s key serviceId ids :
  indexed s key ids →
  indexed (drop_id s key serviceId) key (other_than serviceId ids).
Proof.
  intros H. left. unfold get. rewrite lookup_drop_id_eq.
  destruct H as [-> | [-> ->]]; simpl; [|done]. by rewrite filter_ids.
Qed.

Lemma lifecycle_of_get s s' serviceId :
  get s' (service_key serviceId) = get s (service_key serviceId) →
  lifecycle_of s' serviceId = lifecycle_of s serviceId
  ∧ ∀ address, owned_by s' serviceId address ↔ owned_by s serviceId address.
Proof. unfold lifecycle_of, owned_by. by intros ->. Qed.

Lemma consistent_register s address (r : RegisterValue) :
  consistent s → consistent (registerService s address r).2.
Proof.
  intros [(ids & Hidx & Hnd & Hids) Hprov].
  destruct (decide (is_null (get s (service_key (reg_serviceId r))) = false))
    as [Hex|Hno].
  { rewrite registerService_rejects by done. by split; [exists ids|]. }
  assert (Habsent : lifecycle_of s (reg_serviceId r) ≠ Active).
  { intros H. apply Hno, record_exists_lifecycle. by rewrite H. }
  destruct (registerService_fresh_record s address r Hno)
    as (record & _ & Hrec & _ & _ & _ & _ & _ & _ & Howner & _ & Hactive).
  set (s' := (registerService s address r).2) in *.
  assert (Hnew : lifecycle_of s' (reg_serviceId r) = Active).
  { unfold lifecycle_of. rewrite Hrec, Hactive.
    by destruct record. }
  assert (Hother : ∀ x, x ≠ (reg_serviceId r) →
            get s' (service_key x) = get s (service_key x)).
  { intros x Hx. apply (step_other_record s (address, Register r)).
    simpl. rewrite !not_elem_of_cons. split_and!.
    - intros H%service_key_inj. by apply Hx.
    - intros H. by apply (service_key_not_index x).
    - intros H. by apply (service_key_not_provider x address).
    - apply not_elem_of_nil. }
  assert (Hstore : s' = push_id (push_id (put s (service_key (reg_serviceId r)) record)
                                   index_key (reg_serviceId r))
                          (provider_key address) (reg_serviceId r)).
  { subst s'. rewrite registerService_fresh_store by done. cbn [snd].
    rewrite registerService_fresh_store in Hrec by done. cbn [snd] in Hrec.
    rewrite !get_push_id_ne in Hrec
      by auto using service_key_not_provider, service_key_not_index.
    rewrite get_put_eq in Hrec. by rewrite <- Hrec. }
  split.
  - exists (ids ++ [reg_serviceId r])%list. split_and!.
    + rewrite Hstore. eapply indexed_get.
      { apply get_push_id_ne, provider_key_not_index. }
      apply push_id_indexed. eapply indexed_get; [|done].
      apply get_put_ne. intros H. by apply (service_key_not_index (reg_serviceId r)).
    + apply NoDup_app. split_and!; [done| |apply NoDup_singleton].
      intros x Hx ->%list_elem_of_singleton. by apply Habsent, Hids.
    + intros x. rewrite elem_of_app, list_elem_of_singleton.
      destruct (decide (x = (reg_serviceId r))) as [->|Hx]; [by split; [|right]|].
      destruct (lifecycle_of_get s s' x (Hother x Hx)) as [-> _].
      rewrite Hids. split; [by intros [?|?]|by left].
  - intros b. destruct (Hprov b) as (idsb & Hidxb & Hndb & Hidsb).
    destruct (decide (b = address)) as [->|Hb].
    + exists (idsb ++ [reg_serviceId r])%list. split_and!.
      * rewrite Hstore. apply push_id_indexed. eapply indexed_get; [|done].
        rewrite get_push_id_ne by apply not_eq_sym, provider_key_not_index.
        apply get_put_ne.
        intros H. by apply (service_key_not_provider (reg_serviceId r) address).
      * apply NoDup_app. split_and!; [done| |apply NoDup_singleton].
        intros x Hx ->%list_elem_of_singleton.
        by apply Habsent, (Hidsb (reg_serviceId r)).
      * intros x. rewrite elem_of_app, list_elem_of_singleton.
        destruct (decide (x = (reg_serviceId r))) as [->|Hx].
        { split; [|by right]. intros _. split; [done|].
          unfold owned_by. by rewrite Hrec. }
        destruct (lifecycle_of_get s s' x (Hother x Hx)) as [-> Hsame].
        rewrite Hsame, Hidsb. split; [by intros [?|?]|by left].
    + exists idsb. split_and!; [|done|].
      * eapply indexed_get; [|done].
        apply (get_lookup s s'), (step_writes s (address, Register r)).
        simpl. rewrite !not_elem_of_cons. split_and!.
        -- intros H. by apply (service_key_not_provider (reg_serviceId r) b).
        -- apply provider_key_not_index.
        -- intros H%provider_key_inj. by apply Hb.
        -- apply not_elem_of_nil.
      * intros x. destruct (decide (x = (reg_serviceId r))) as [->|Hx].
        { split; [intros H; apply Hidsb in H as [H _]; by destruct Habsent|].
          intros [_ H]. unfold owned_by in H.
          rewrite Hrec, Howner in H. congruence. }
        destruct (lifecycle_of_get s s' x (Hother x Hx)) as [-> Hsame].
        by rewrite Hsame, Hidsb.
Qed.

Lemma updateService_owned s address (u : UpdateValue) serviceId provider :
  owned_by (updateService s address u).2 serviceId provider
  ↔ owned_by s serviceId provider.
Proof.
  destruct (decide (is_null (get s (service_key serviceId)) = false))
    as [Hex|Hno].
  - unfold owned_by.
    assert (Hname : "providerAddress"
                    ∉ ["description"; "priceInTNK"; "category"; "active"]).
    { apply (bool_decide_unpack _). vm_compute. exact I. }
    pose proof (step_fixed_fields s (address, Update u) serviceId
                  "providerAddress" Hex Hname) as H.
    simpl in H. by rewrite H.
  - apply not_false_is_true in Hno.
    destruct (decide (serviceId = upd_serviceId u)) as [->|Hne].
    + unfold updateService. by rewrite Hno.
    + apply lifecycle_of_get, (step_other_record s (address, Update u)).
      simpl. rewrite not_elem_of_cons. split; [|apply not_elem_of_nil].
      intros H%service_key_inj. by apply Hne.
Qed.

Lemma consistent_update s address (u : UpdateValue) :
  consistent s → consistent (updateService s address u).2.
Proof.
  intros [(ids & Hidx & Hnd & Hids) Hprov].
  assert (Hkeep : ∀ key, key ≠ service_key (upd_serviceId u) →
            get (updateService s address u).2 key = get s key).
  { intros key Hkey. apply get_lookup, (step_writes s (address, Update u)).
    simpl. rewrite not_elem_of_cons. split; [done|apply not_elem_of_nil]. }
  split.
  - exists ids. split_and!; [|done|].
    + eapply indexed_get; [|done]. apply Hkeep, service_key_not_index.
    + intros x. by rewrite updateService_lifecycle.
  - intros b. destruct (Hprov b) as (idsb & Hidxb & Hndb & Hidsb).
    exists idsb. split_and!; [|done|].
    + eapply indexed_get; [|done]. apply Hkeep, service_key_not_provider.
    + intros x. by rewrite updateService_lifecycle, updateService_owned.
Qed.

Lemma owned_by_one s serviceId address address' :
  owned_by s serviceId address → owned_by s serviceId address' →
  address = address'.
Proof. unfold owned_by. congruence. Qed.

Lemma consistent_remove s address serviceId :
  consistent s → consistent (removeService s address serviceId).2.
Proof.
  intros [(ids & Hidx & Hnd & Hids) Hprov].
  destruct (is_null (get s (service_key serviceId))) eqn:Hnull.
  { unfold removeService. rewrite Hnull. by split; [exists ids|]. }
  destruct (is_str (get_prop (get s (service_key serviceId)) "providerAddress")
              address) eqn:Hown.
  2:{ unfold removeService. rewrite Hnull, Hown. by split; [exists ids|]. }
  apply is_str_true in Hown. fold (owned_by s serviceId address) in Hown.
  set (s' := (removeService s address serviceId).2).
  assert (Hgone : lifecycle_of s' serviceId = Inactive).
  { unfold lifecycle_of. subst s'. rewrite removeService_record by done.
    destruct (owned_by_object _ _ _ Hown) as [fields ->].
    by rewrite get_prop_set_prop_eq. }
  assert (Hother : ∀ x, x ≠ serviceId →
            get s' (service_key x) = get s (service_key x)).
  { intros x Hx. apply (step_other_record s (address, Remove serviceId)).
    simpl. rewrite !not_elem_of_cons. split_and!.
    - intros H%service_key_inj. by apply Hx.
    - intros H. by apply (service_key_not_index x).
    - intros H. by apply (service_key_not_provider x address).
    - apply not_elem_of_nil. }
  assert (Hstore : s' = drop_id
            (drop_id
               (put s (service_key serviceId)
                  (set_prop (get s (service_key serviceId)) "active" (JBool false)))
               index_key serviceId)
            (provider_key address) serviceId).
  { subst s'. by rewrite removeService_owner. }
  split.
  - exists (other_than serviceId ids). split_and!.
    + rewrite Hstore. eapply indexed_get.
      { apply get_drop_id_ne, provider_key_not_index. }
      apply drop_id_indexed. eapply indexed_get; [|done].
      apply get_put_ne. intros H. by apply (service_key_not_index serviceId).
    + by apply NoDup_other_than.
    + intros x. rewrite elem_of_other_than, Hids.
      destruct (decide (x = serviceId)) as [->|Hx].
      { rewrite Hgone. split; [by intros [_ ?]|done]. }
      destruct (lifecycle_of_get s s' x (Hother x Hx)) as [-> _].
      split; [by intros [? _]|done].
  - intros b. destruct (Hprov b) as (idsb & Hidxb & Hndb & Hidsb).
    destruct (decide (b = address)) as [->|Hb].
    + exists (other_than serviceId idsb). split_and!.
      * rewrite Hstore. apply drop_id_indexed. eapply indexed_get; [|done].
        rewrite get_drop_id_ne by apply not_eq_sym, provider_key_not_index.
        apply get_put_ne.
        intros H. by apply (service_key_not_provider serviceId address).
      * by apply NoDup_other_than.
      * intros x. rewrite elem_of_other_than, Hidsb.
        destruct (decide (x = serviceId)) as [->|Hx].
        { rewrite Hgone. split; [by intros [_ ?]|by intros [? _]]. }
        destruct (lifecycle_of_get s s' x (Hother x Hx)) as [-> Hsame].
        rewrite Hsame. split; [by intros [? _]|done].
    + exists idsb. split_and!; [|done|].
      * eapply indexed_get; [|done].
        apply (get_lookup s s'), (step_writes s (address, Remove serviceId)).
        simpl. rewrite !not_elem_of_cons. split_and!.
        -- intros H. by apply (service_key_not_provider serviceId b).
        -- apply provider_key_not_index.
        -- intros H%provider_key_inj. by apply Hb.
        -- apply not_elem_of_nil.
      * intros x. rewrite Hidsb.
        destruct (decide (x = serviceId)) as [->|Hx].
        { rewrite Hgone. split; [|by intros [? _]].
          intros [_ Hownb]. destruct Hb. by eapply owned_by_one. }
        destruct (lifecycle_of_get s s' x (Hother x Hx)) as [-> Hsame].
        by rewrite Hsame.
Qed.

Lemma consistent_empty : consistent ∅.
Proof.
  split.
  - exists []. split_and!; [by right | constructor |].
    intros x. split; [by intros ?%elem_of_nil|]. by vm_compute.
  - intros b. exists []. split_and!; [by right | constructor |].
    intros x. split; [by intros ?%elem_of_nil|]. intros [H _]. by vm_compute in H.
Qed.

(** X7.  The indices agree with the records at every step.  In the empty
    registry, and after any transaction on a registry where this holds, the
    global index lists exactly the ids whose record is active, each once, and
    the index of every provider lists exactly the active ids whose record
    names that provider, each once.  So it holds after every sequence of
    transactions from the empty registry. *)
Theorem consistent_invariant :
  consistent ∅
  ∧ (∀ s call, consistent s → consistent (step s call).2)
  ∧ ∀ calls, consistent (run ∅ calls).
Proof.
  assert (Hstep : ∀ s call, consistent s → consistent (step s call).2).
  { intros s [address [r|u|serviceId]] Hs; simpl.
    - by apply consistent_register.
    - by apply consistent_update.
    - by apply consistent_remove. }
  split_and!; [apply consistent_empty | done |].
  intros calls. generalize consistent_empty. generalize (∅ : store).
  induction calls as [|call calls IH]; intros s Hs; [done|].
  unfold run. simpl. apply IH. by apply Hstep.
Qed.

Lemma consistent_invariant_witness :
  consistent (∅ : store)
  ∧ consistent (step ∅ ("alice", Register echo_service)).2.
Proof.
  destruct consistent_invariant as (Hempty & Hstep & _).
  split; [exact Hempty|]. exact (Hstep ∅ _ Hempty).
Defined.

(** X8.  In a registry whose indices agree with the records, [listServices]
    returns exactly the active records, one per active id, and
    [getProviderServices] exactly the active records of that provider. *)
Theorem listServices_consistent s :
  consistent s →
  (∃ ids, NoDup ids
     ∧ (∀ serviceId, serviceId ∈ ids ↔ lifecycle_of s serviceId = Active)
     ∧ listServices s
       = Normal ((fun serviceId => get s (service_key serviceId)) <$> ids))
  ∧ ∀ address,
      ∃ ids, NoDup ids
        ∧ (∀ serviceId,
             serviceId ∈ ids
             ↔ lifecycle_of s serviceId = Active ∧ owned_by s serviceId address)
        ∧ getProviderServices s address
          = Normal ((fun serviceId => get s (service_key serviceId)) <$> ids).
Proof.
  assert (Hlist : ∀ (ids : list string) key,
            indexed s key ids →
            (∀ x, x ∈ ids → lifecycle_of s x = Active) →
            match iterate (js_or (get s key) (JArr [])) with
            | Normal found => Normal (omap (active_service s) found)
            | TypeError => TypeError
            end
            = Normal ((fun x => get s (service_key x)) <$> ids)).
  { intros ids key Hidx Hact.
    assert (js_or (get s key) (JArr []) = JArr (JStr <$> ids)) as ->.
    { by destruct Hidx as [-> | [-> ->]]. }
    simpl. f_equal. clear Hidx.
    induction ids as [|x ids IH]; [done|]. csimpl.
    rewrite active_service_record by (apply Hact; by left).
    f_equal. apply IH. intros y Hy. apply Hact. by right. }
  intros [(ids & Hidx & Hnd & Hids) Hprov]. split.
  - exists ids. split_and!; [done..|].
    apply Hlist; [done|]. intros x Hx. by apply Hids.
  - intros b. destruct (Hprov b) as (idsb & Hidxb & Hndb & Hidsb).
    exists idsb. split_and!; [done..|].
    apply Hlist; [done|]. intros x Hx. by apply Hidsb.
Qed.

Lemma listServices_consistent_witness :
  consistent one_service
  ∧ ∃ ids, listServices one_service
           = Normal ((fun serviceId => get one_service (service_key serviceId))
                       <$> ids).
Proof.
  assert (H : consistent one_service).
  { exact (consistent_register ∅ "alice" echo_service consistent_empty). }
  split; [exact H|].
  destruct (proj1 (listServices_consistent one_service H)) as (ids & _ & _ & Hl).
  by exists ids.
Defined.

Lemma service_key_not_time serviceId : "currentTime" ≠ service_key serviceId.
Proof. unfold service_key. lazy. discriminate. Qed.

Lemma provider_key_not_time address : "currentTime" ≠ provider_key address.
Proof. unfold provider_key. lazy. discriminate. Qed.

Lemma timer_feature_frame s valid (k t : value) key' :
  key' ≠ "currentTime" → timer_feature s valid k t !! key' = s !! key'.
Proof.
  intros Hne. unfold timer_feature, put.
  destruct (negb valid); [done|]. destruct (is_str k "currentTime"); [|done].
  by rewrite lookup_insert_ne.
Qed.

Lemma timer_feature_consistent s valid (k t : value) :
  consistent s → consistent (timer_feature s valid k t).
Proof.
  assert (Hrec : ∀ x, get (timer_feature s valid k t) (service_key x)
                      = get s (service_key x)).
  { intros x. apply get_lookup, timer_feature_frame, not_eq_sym,
      service_key_not_time. }
  intros [(ids & Hidx & Hnd & Hids) Hprov]. split.
  - exists ids. split_and!; [|done|].
    + eapply indexed_get; [|done]. by apply get_lookup, timer_feature_frame.
    + intros x. destruct (lifecycle_of_get _ _ x (Hrec x)) as [-> _].
      apply Hids.
  - intros b. destruct (Hprov b) as (idsb & Hidxb & Hndb & Hidsb).
    exists idsb. split_and!; [|done|].
    + eapply indexed_get; [|done].
      apply get_lookup, timer_feature_frame, not_eq_sym, provider_key_not_time.
    + intros x. destruct (lifecycle_of_get _ _ x (Hrec x)) as [-> Hsame].
      rewrite Hsame. apply Hidsb.
Qed.

(** X17.  The timer feature writes [currentTime] and no other key, so the
    registry stays consistent under it; and a record registered after a
    valid [currentTime] entry carries the value of that entry as its
    timestamp ([null] if the entry had none). *)
Theorem timer_feature_timestamp s valid (k t : value) :
  (∀ key', key' ≠ "currentTime" →
           timer_feature s valid k t !! key' = s !! key')
  ∧ (consistent s → consistent (timer_feature s valid k t))
  ∧ ∀ address (r : RegisterValue),
      ¬ record_exists s (reg_serviceId r) →
      get_prop
        (get (registerService
                (timer_feature s true (JStr "currentTime") t) address r).2
           (service_key (reg_serviceId r)))
        "timestamp"
      = if is_undefined t then JNull else t.
Proof.
  split_and!.
  - intros key'. apply timer_feature_frame.
  - apply timer_feature_consistent.
  - intros address r Hno.
    set (s1 := timer_feature s true (JStr "currentTime") t).
    assert (Hno1 : ¬ record_exists s1 (reg_serviceId r)).
    { unfold record_exists in *. subst s1.
      by rewrite (get_lookup s _ (service_key (reg_serviceId r)))
        by apply timer_feature_frame, not_eq_sym, service_key_not_time. }
    destruct (registerService_fresh_record s1 address r Hno1)
      as (record & _ & -> & _ & _ & _ & _ & _ & _ & _ & -> & _).
    subst s1. unfold timer_feature. simpl. apply get_put_eq.
Qed.

Lemma timer_feature_timestamp_witness :
  ¬ record_exists (∅ : store) "echo"
  ∧ get_prop
      (get (registerService
              (timer_feature ∅ true (JStr "currentTime") (JNum 1700000000000))
              "alice" echo_service).2
         (service_key "echo"))
      "timestamp"
    = JNum 1700000000000.
Proof.
  assert (Hno : ¬ record_exists (∅ : store) (reg_serviceId echo_service))
    by (vm_compute; discriminate).
  split; [exact Hno|].
  exact (proj2 (proj2 (timer_feature_timestamp ∅ true (JStr "currentTime")
                         (JNum 1700000000000))) "alice" echo_service Hno).
Defined.

End RegistryMore.

(** ** The dispatcher: registration, envelopes, namespaces, [/rpc_call] *)
Section ToolTable.
Import Rpc Tools Examples.



(** The sample handler is what three calls of [registerTool] leave. *)
Lemma sample_handler_registered channels :
  ∃ h1 h2,
    registerTool {| tools := []; enabledChannels := channels |}
      "echo" echo (JObj []) = Normal h1
    ∧ registerTool h1 "silent" silent (JObj []) = Normal h2
    ∧ registerTool h2 "boom" failing (JObj []) = Normal (sample_handler channels).
Proof. by repeat eexists. Qed.





End ToolTable.

Section DispatcherMore.
Import Rpc Tools Commands Examples.

Variable JSON_parse : string → option value.

(** A parsed request is made of the fields of the decoded payload. *)
Lemma _parseJsonRpc_Some payload request :
  _parseJsonRpc JSON_parse payload = Normal (Some request) →
  ∃ json,
    decode JSON_parse payload = Some json
    ∧ conforming json (method request)
    ∧ jsonrpc request = JStr "2.0"
    ∧ params request = js_or (get_prop json "params") (JArr [])
    ∧ id request = get_prop json "id".
Proof.
  unfold _parseJsonRpc.
  destruct (decode JSON_parse payload) as [json|]; [|done].
  destruct (is_nullish json); [done|].
  destruct (is_str (get_prop json "jsonrpc") "2.0") eqn:Hj; [|done].
  apply is_str_true in Hj. simpl.
  destruct (get_prop json "method") as [| | | |m| |] eqn:Hm; try done.
  destruct (is_undefined (get_prop json "id")) eqn:Hid; [done|].
  intros [= <-]. exists json. simpl. split_and!; try done.
  split_and!; [done | done |]. intros H. by rewrite H in Hid.
Qed.



(** X10.  Whatever [handleMessage] returns as an envelope answers a
    conforming request on a served channel: it has [jsonrpc] "2.0" and the
    id of that request, never [undefined], and is either a result envelope
    or an error envelope with code [-32601] or [-32000] and a truthy
    message. *)
Theorem handleMessage_envelope h channel payload envelope :
  handleMessage JSON_parse h channel payload = Normal (Some envelope) →
  not_for_us h channel = false
  ∧ ∃ json m,
      decode JSON_parse payload = Some json
      ∧ conforming json m
      ∧ get_prop envelope "jsonrpc" = JStr "2.0"
      ∧ get_prop envelope "id" = get_prop json "id"
      ∧ get_prop envelope "id" ≠ JUndefined
      ∧ ((∃ result, envelope = successResponse result (get_prop json "id"))
         ∨ ∃ code message,
             envelope = errorResponse code message (get_prop json "id")
             ∧ truthy message = true
             ∧ (code = -32601 ∧ Map_get m (tools h) = None
                ∨ code = -32000 ∧ is_Some (Map_get m (tools h)))).
Proof.
  unfold handleMessage.
  destruct (not_for_us h channel); [done|].
  destruct (_parseJsonRpc JSON_parse payload) as [[request|]|] eqn:Hparse;
    [|done..].
  destruct (_parseJsonRpc_Some _ _ Hparse)
    as (json & Hdec & Hconf & _ & _ & Hid).
  intros H. split; [done|]. exists json, (method request).
  split; [done|]. split; [done|]. rewrite Hid in H.
  destruct Hconf as (_ & _ & Hdefined).
  destruct (Map_get (method request) (tools h)) as [tool|] eqn:Htool.
  - destruct (handler tool _) as [result|err].
    + injection H as <-. split_and!; try done. left. by eexists.
    + destruct (is_nullish err); [done|]. injection H as <-.
      split_and!; try done. right. eexists _, _. split; [done|].
      split; [by apply js_or_truthy|]. right. by split.
  - injection H as <-. split_and!; try done. right. eexists _, _.
    split; [done|]. split; [|by left]. cbn [truthy].
    rewrite bool_decide_eq_false_2; [done|].
    unfold String.app. simpl. discriminate.
Qed.

(** X12.  The request [/rpc_call] broadcasts is always one a handler answers:
    it is conforming, its [params] is an array (a parsed value that is not one
    is wrapped), its id is the time of the call, and [_parseJsonRpc] accepts
    it with exactly those fields. *)
Theorem rpc_call_conforming sidechannel now args channel rpcRequest :
  rpc_call JSON_parse sidechannel now args = Broadcast channel rpcRequest →
  ∃ m params,
    truthy channel = true
    ∧ conforming rpcRequest m
    ∧ get_prop rpcRequest "params" = params
    ∧ Array_isArray params = true
    ∧ get_prop rpcRequest "id" = JNum now
    ∧ ∀ parse,
        _parseJsonRpc parse rpcRequest
        = Normal (Some {| jsonrpc := JStr "2.0";
                          method := m;
                          params := params;
                          id := JNum now |}).
Proof.
  unfold rpc_call.
  destruct (negb (truthy _)); [done|].
  destruct (negb sidechannel); [done|].
  set (parsed := if truthy _ then _ else _).
  destruct parsed as [params|] eqn:Hparsed; [|done].
  intros [= <- <-]. eexists _, params.
  assert (Harray : Array_isArray params = true).
  { subst parsed. destruct (truthy (js_or (get_prop args "params") _)).
    - destruct (JSON_parse _) as [v|]; [|done].
      injection Hparsed as <-. by destruct (Array_isArray v) eqn:E.
    - by injection Hparsed as <-. }
  split_and!.
  - apply js_or_truthy, js_or_truthy. done.
  - by split_and!.
  - done.
  - done.
  - done.
  - intros parse. unfold _parseJsonRpc. simpl.
    by destruct params.
Qed.

End DispatcherMore.

Section DispatcherMoreExamples.
Import Rpc Tools Commands Examples.


Lemma handleMessage_envelope_witness :
  handleMessage JSON_parse_literal (sample_handler None) "chat"
    (request_for "echo" (JNum 1))
  = Normal (Some (successResponse (JArr [JNum 5; JNum 3]) (JNum 1)))
  ∧ get_prop (successResponse (JArr [JNum 5; JNum 3]) (JNum 1)) "id" ≠ JUndefined.
Proof.
  assert (H : handleMessage JSON_parse_literal (sample_handler None) "chat"
                (request_for "echo" (JNum 1))
              = Normal (Some (successResponse (JArr [JNum 5; JNum 3]) (JNum 1))))
    by (vm_compute; reflexivity).
  split; [exact H|].
  destruct (handleMessage_envelope JSON_parse_literal _ _ _ _ H)
    as (_ & json & m & _ & _ & _ & _ & Hid & _).
  exact Hid.
Defined.


Lemma rpc_call_conforming_witness :
  rpc_call JSON_parse_literal true 1700000000000 (JObj [("method", JStr "echo")])
  = Broadcast (JStr "0000intercom")
      (JObj [ ("jsonrpc", JStr "2.0"); ("method", JStr "echo");
              ("params", JArr []); ("id", JNum 1700000000000) ])
  ∧ ∃ request,
      _parseJsonRpc JSON_parse_literal
        (JObj [ ("jsonrpc", JStr "2.0"); ("method", JStr "echo");
                ("params", JArr []); ("id", JNum 1700000000000) ])
      = Normal (Some request).
Proof.
  assert (H : rpc_call JSON_parse_literal true 1700000000000
                (JObj [("method", JStr "echo")])
              = Broadcast (JStr "0000intercom")
                  (JObj [ ("jsonrpc", JStr "2.0"); ("method", JStr "echo");
                          ("params", JArr []); ("id", JNum 1700000000000) ]))
    by (vm_compute; reflexivity).
  split; [exact H|].
  destruct (rpc_call_conforming JSON_parse_literal _ _ _ _ _ H)
    as (m & params & _ & _ & _ & _ & _ & Hparse).
  eexists. exact (Hparse JSON_parse_literal).
Defined.

End DispatcherMoreExamples.

(** ** The codec and the capability payloads: normal forms and signatures *)
Section CapabilityMore.
Import Codec Invite Examples.

Lemma assoc_map_nullify key fields :
  assoc key (map (fun kv : string * value => (kv.1, nullify kv.2)) fields)
  = nullify <$> assoc key fields.
Proof. apply (assoc_map_values nullify). Qed.

(** X13.  The canonical encoding does not tell [undefined] from [null], at
    any depth of arrays and objects: a member or element that is [undefined]
    is signed as [null], not dropped. *)
Theorem stableStringify_nullify v :
  stableStringify (nullify v) = stableStringify v.
Proof.
  induction v as [| | | | |xs IH|fields IH] using value_nested_ind; try done.
  - cbn [nullify stableStringify]. do 3 f_equal.
    induction IH as [|x xs Hx _ IHxs]; [done|]. simpl. by rewrite Hx, IHxs.
  - cbn [nullify]. rewrite !stableStringify_object.
    assert (Hkeys : Object_keys (map (fun kv => (kv.1, nullify kv.2)) fields)
                    = Object_keys fields).
    { unfold Object_keys. clear IH.
      induction fields as [|[k w] fields IHf]; [done|]. csimpl.
      by rewrite <- IHf. }
    rewrite Hkeys. do 3 f_equal. apply map_ext. intros key. f_equal.
    cbn [get_prop]. rewrite assoc_map_nullify.
    destruct (assoc key fields) as [w|] eqn:Hw; [|done]. simpl.
    apply assoc_Some_elem in Hw. rewrite Forall_forall in IH.
    by apply (IH (key, w)).
Qed.

Lemma lower_lower c : lower (lower c) = lower c.
Proof. by destruct c as [[] [] [] [] [] [] [] []]. Qed.

Lemma is_space_lower c : Ascii.is_space (lower c) = Ascii.is_space c.
Proof. by destruct c as [[] [] [] [] [] [] [] []]. Qed.

Lemma toLowerCase_twice text : toLowerCase (toLowerCase text) = toLowerCase text.
Proof. induction text as [|c text IH]; simpl; [done|]. by rewrite lower_lower, IH. Qed.

Lemma toLowerCase_trimStart text :
  toLowerCase (trimStart text) = trimStart (toLowerCase text).
Proof.
  induction text as [|c text IH]; simpl; [done|].
  rewrite is_space_lower. by destruct (Ascii.is_space c).
Qed.

Lemma toLowerCase_rev_app text acc :
  toLowerCase (String.rev_app text acc)
  = String.rev_app (toLowerCase text) (toLowerCase acc).
Proof.
  revert acc. induction text as [|c text IH]; intros acc; simpl; [done|].
  by rewrite IH.
Qed.

Lemma toLowerCase_trim text : toLowerCase (trim text) = trim (toLowerCase text).
Proof.
  unfold trim, String.rev.
  by rewrite toLowerCase_rev_app, toLowerCase_trimStart, toLowerCase_rev_app,
    toLowerCase_trimStart.
Qed.

Lemma trimStart_twice text : trimStart (trimStart text) = trimStart text.
Proof.
  induction text as [|c text IH]; simpl; [done|].
  destruct (Ascii.is_space c) eqn:E; [done|]. simpl. by rewrite E.
Qed.

Lemma append_nil_r text : String.app text "" = text.
Proof. unfold String.app. induction text; simpl; [done|]. by f_equal. Qed.

Lemma append_assoc a b c :
  String.app (String.app a b) c = String.app a (String.app b c).
Proof. unfold String.app. induction a; simpl; [done|]. by f_equal. Qed.

Lemma rev_app_append text acc :
  String.rev_app text acc = String.app (String.rev text) acc.
Proof.
  unfold String.rev. revert acc.
  induction text as [|c text IH]; intros acc; simpl; [done|].
  rewrite IH, (IH (String c "")), append_assoc. done.
Qed.

Lemma rev_append a b :
  String.rev (String.app a b) = String.app (String.rev b) (String.rev a).
Proof.
  induction a as [|c a IH].
  - unfold String.app at 1. simpl. by rewrite append_nil_r.
  - unfold String.app at 1. simpl. fold (String.app a b).
    unfold String.rev at 1 3. simpl. rewrite !rev_app_append, IH.
    by rewrite append_assoc.
Qed.

Lemma rev_rev text : String.rev (String.rev text) = text.
Proof.
  induction text as [|c text IH]; [done|].
  unfold String.rev at 2. simpl. rewrite rev_app_append, rev_append, IH.
  done.
Qed.

(** What [trimStart] removes is a prefix. *)
Lemma trimStart_suffix text : ∃ spaces, text = String.app spaces (trimStart text).
Proof.
  induction text as [|c text [spaces IH]]; [by exists ""|]. simpl.
  destruct (Ascii.is_space c); [|by exists ""].
  exists (String c spaces). unfold String.app in *. simpl. by f_equal.
Qed.

Lemma trimStart_clean c text :
  Ascii.is_space c = false → trimStart (String c text) = String c text.
Proof. simpl. by intros ->. Qed.

Lemma trimStart_head text c rest :
  trimStart text = String c rest → Ascii.is_space c = false.
Proof.
  induction text as [|c' text IH]; simpl; [done|].
  destruct (Ascii.is_space c') eqn:E; [done|]. by intros [= <- _].
Qed.

Lemma trimStart_trim text : trimStart (trim text) = trim text.
Proof.
  unfold trim.
  set (w := trimStart text). set (u := trimStart (String.rev w)).
  destruct (trimStart_suffix (String.rev w)) as [spaces Hsp]. fold u in Hsp.
  assert (Hw : w = String.app (String.rev u) (String.rev spaces)).
  { by rewrite <- (rev_rev w), Hsp, rev_append. }
  destruct (String.rev u) as [|c rest] eqn:Hu; [done|].
  apply trimStart_clean. apply (trimStart_head text c (String.app rest (String.rev spaces))).
  fold w. rewrite Hw. done.
Qed.

Lemma trim_twice text : trim (trim text) = trim text.
Proof.
  unfold trim at 1. rewrite trimStart_trim. unfold trim.
  by rewrite rev_rev, trimStart_twice.
Qed.

Lemma normal_key text :
  toLowerCase (trim (toLowerCase (trim text))) = toLowerCase (trim text).
Proof. by rewrite <- toLowerCase_trim, toLowerCase_twice, trim_twice. Qed.

Lemma normalizeInvitePayload_twice payload :
  normalizeInvitePayload (normalizeInvitePayload payload)
  = normalizeInvitePayload payload.
Proof.
  unfold normalizeInvitePayload. simpl. rewrite !normal_key. f_equal.
  by destruct (inviterAddress payload).
Qed.

Lemma normalizeWelcomePayload_twice payload :
  normalizeWelcomePayload (normalizeWelcomePayload payload)
  = normalizeWelcomePayload payload.
Proof. unfold normalizeWelcomePayload. simpl. by rewrite !normal_key. Qed.

(** X14.  [normalizeInvitePayload] and [normalizeWelcomePayload] are
    idempotent: a payload that has been normalised (by the issuer) is left
    as it is by normalising it again, so both sides canonicalise the same
    payload. *)
Theorem normalize_idempotent :
  (∀ payload,
     normalizeInvitePayload (normalizeInvitePayload payload)
     = normalizeInvitePayload payload)
  ∧ (∀ payload,
       normalizeWelcomePayload (normalizeWelcomePayload payload)
       = normalizeWelcomePayload payload).
Proof.
  split; [apply normalizeInvitePayload_twice | apply normalizeWelcomePayload_twice].
Qed.

(** X15.  Every invite [/sc_invite] prints is signed over the canonical
    encoding of exactly the payload it carries, with a non-empty signature;
    that payload is in normal form, has version 1, names the channel asked
    for and the wallet's key as inviter, and its [inviterAddress] is never
    [undefined]; the embedded welcome is [undefined] or truthy. *)
Theorem sc_invite_signed peer args invite :
  sc_invite peer args = Issued invite →
  sig invite = sign peer (stableStringify (payload_object (payload invite)))
  ∧ sig invite ≠ ""
  ∧ normalizeInvitePayload (payload invite) = payload invite
  ∧ version (payload invite) = 1
  ∧ channel (payload invite) = ToString (channel_arg args)
  ∧ inviterPubKey (payload invite) = toLowerCase (trim (inviterPubKey_of peer))
  ∧ inviterPubKey_of peer ≠ ""
  ∧ nonce (payload invite) = random_nonce peer
  ∧ is_undefined (inviterAddress (payload invite)) = false
  ∧ (welcome invite = JUndefined ∨ truthy (welcome invite) = true).
Proof.
  unfold sc_invite.
  destruct (negb (truthy (channel_arg args)) || negb (truthy (invitee_arg args)));
    [done|].
  destruct (sidechannel peer) as [sc|]; [|done].
  destruct (bool_decide (inviterPubKey_of peer = "")) eqn:Hkey; [done|].
  apply bool_decide_eq_false_1 in Hkey.
  destruct (ttlMs_of (ttl_arg args) (inviteTtlMs sc)) as [ttlMs|]; [|done].
  destruct (not_positive ttlMs); [done|].
  destruct (truthy (welcome_arg args) && _); [done|].
  destruct (bool_decide (_ = "")) eqn:Hsig; [done|].
  apply bool_decide_eq_false_1 in Hsig.
  intros [= <-]. cbn [sig payload welcome].
  split_and!; try done.
  - apply normalizeInvitePayload_twice.
  - simpl. by destruct (match pubKeyHexToAddress peer with
                        | Some _ => _ | None => _ end).
  - unfold js_or. destruct (truthy _) eqn:E; [by right|by left].
Qed.

Lemma sc_invite_signed_witness :
  ∃ invite,
    sc_invite (peer_with JUndefined) (invite_args (JStr "60")) = Issued invite
    ∧ sig invite = "5161"
    ∧ inviteePubKey (payload invite) = "ab12"
    ∧ normalizeInvitePayload (payload invite) = payload invite.
Proof.
  eexists. split; [vm_compute; reflexivity|].
  split_and!; [reflexivity | reflexivity |].
  exact (proj1 (proj2 (proj2 (sc_invite_signed (peer_with JUndefined)
                                (invite_args (JStr "60")) _ eq_refl)))).
Defined.

(** X16.  Every welcome [/sc_welcome] prints is signed over the canonical
    encoding of exactly the payload it carries, with a non-empty signature;
    the payload is in normal form, names the channel asked for and the
    wallet's key as owner, and carries the time of issue and the text.  The
    text is the first truthy one of [--text] and [--message], else [--msg]:
    an empty [--text] or [--message] is skipped, and with no [--msg] behind
    it the command stops at the usage message, as it does whenever the text
    is [undefined]; an empty [--msg] is a text.  With a channel, a text, the
    sidechannel, the wallet key and a signature, the welcome is issued. *)
Theorem sc_welcome_signed peer args :
  (∀ welcome, sc_welcome peer args = WelcomeIssued welcome →
     w_sig welcome
     = sign peer (stableStringify (welcome_object (w_payload welcome)))
     ∧ w_sig welcome ≠ ""
     ∧ normalizeWelcomePayload (w_payload welcome) = w_payload welcome
     ∧ w_channel (w_payload welcome) = ToString (channel_arg args)
     ∧ w_ownerPubKey (w_payload welcome)
       = toLowerCase (trim (inviterPubKey_of peer))
     ∧ w_text (w_payload welcome) = ToString (text_arg args)
     ∧ w_issuedAt (w_payload welcome) = Date_now peer
     ∧ w_version (w_payload welcome) = 1)
  ∧ (text_arg args = JUndefined → sc_welcome peer args = WelcomeUsage)
  ∧ (truthy (get_prop args "text") = false →
     truthy (get_prop args "message") = false →
     text_arg args = get_prop args "msg"
     ∧ (get_prop args "msg" = JUndefined → sc_welcome peer args = WelcomeUsage))
  ∧ (let payload := {|
       w_channel := ToString (channel_arg args);
       w_ownerPubKey := toLowerCase (trim (inviterPubKey_of peer));
       w_text := ToString (text_arg args);
       w_issuedAt := Date_now peer;
       w_version := 1 |} in
     let sigHex := sign peer (stableStringify (welcome_object payload)) in
     truthy (channel_arg args) = true →
     text_arg args ≠ JUndefined →
     is_Some (sidechannel peer) →
     inviterPubKey_of peer ≠ "" →
     sigHex ≠ "" →
     sc_welcome peer args
     = WelcomeIssued {| w_payload := payload; w_sig := sigHex |}).
Proof.
  assert (Husage : text_arg args = JUndefined →
                   sc_welcome peer args = WelcomeUsage).
  { intros Htext. unfold sc_welcome. rewrite Htext. simpl.
    by rewrite orb_true_r. }
  split_and!.
  - intros welcome. unfold sc_welcome.
    destruct (negb (truthy (channel_arg args)) || is_undefined (text_arg args));
      [done|].
    destruct (sidechannel peer) as [sc|]; [|done].
    destruct (bool_decide (inviterPubKey_of peer = "")); [done|].
    destruct (bool_decide (_ = "")) eqn:Hsig; [done|].
    apply bool_decide_eq_false_1 in Hsig.
    intros [= <-]. cbn [w_sig w_payload].
    split_and!; try done. apply normalizeWelcomePayload_twice.
  - exact Husage.
  - intros Htext Hmessage.
    assert (text_arg args = get_prop args "msg") as Hmsg.
    { unfold text_arg, js_or. by rewrite Htext, Hmessage. }
    split; [done|]. intros Hnone. apply Husage. by rewrite Hmsg.
  - intros payload sigHex Hchannel Htext [sc Hsc] Hkey Hsig.
    unfold sc_welcome. rewrite Hchannel, Hsc. simpl.
    destruct (is_undefined (text_arg args)) eqn:E.
    { destruct (text_arg args); done. }
    rewrite bool_decide_eq_false_2 by done.
    unfold normalizeWelcomePayload. simpl.
    fold payload. fold sigHex.
    by rewrite bool_decide_eq_false_2.
Qed.

Lemma sc_welcome_signed_witness :
  text_arg (JObj [("channel", JStr "room")]) = JUndefined
  ∧ sc_welcome (peer_with JUndefined) (JObj [("channel", JStr "room")])
    = WelcomeUsage
  ∧ sc_welcome (peer_with JUndefined)
      (JObj [("channel", JStr "room"); ("text", JStr "")])
    = WelcomeUsage
  ∧ ∃ welcome,
      sc_welcome (peer_with JUndefined)
        (JObj [("channel", JStr "room"); ("text", JStr ""); ("msg", JStr "")])
      = WelcomeIssued welcome
      ∧ w_text (w_payload welcome) = ""
      ∧ w_sig welcome ≠ "".
Proof.
  split_and!.
  - reflexivity.
  - exact (proj1 (proj2 (sc_welcome_signed (peer_with JUndefined)
                           (JObj [("channel", JStr "room")]))) eq_refl).
  - exact (proj2 (proj1 (proj2 (proj2 (sc_welcome_signed (peer_with JUndefined)
                    (JObj [("channel", JStr "room"); ("text", JStr "")]))))
                    eq_refl eq_refl) eq_refl).
  - pose proof (proj2 (proj2 (proj2 (sc_welcome_signed (peer_with JUndefined)
                   (JObj [("channel", JStr "room"); ("text", JStr "");
                          ("msg", JStr "")])))) eq_refl) as Hrun.
    eexists. split.
    + apply Hrun.
      * vm_compute. discriminate.
      * by eexists.
      * vm_compute. discriminate.
      * vm_compute. discriminate.
    + split; [reflexivity|].
      refine (proj1 (proj2 (proj1 (sc_welcome_signed (peer_with JUndefined)
                (JObj [("channel", JStr "room"); ("text", JStr "");
                       ("msg", JStr "")])) _ _))).
      vm_compute. reflexivity.
Defined.

End CapabilityMore.
